(** * chiplab-backend: the thermal simulation tick and the edit handlers

    A shallow embedding of [index.js]: the periodic [runSimulationTick]
    transaction (neighbour detection, heat blend, cooling, thresholded
    write-back) and the three socket handlers that edit the [blocks]
    collection ([block-updated], [block-deleted], [clear-canvas]).

    JavaScript numbers are IEEE 754 binary64 values; they are embedded as
    Rocq's primitive [float]s, so every arithmetic operator below rounds
    exactly as the program does. *)

From Stdlib Require Import Floats.
From Stdlib Require Import ZArith Bool List Lia.
From stdpp Require Import base option list gmap strings fin_maps.

Set Warnings "-inexact-float".

(** ** JavaScript numbers *)

Module JsNum.

Local Open Scope float_scope.

(** [ToBoolean] on a number: [+0], [-0] and [NaN] are falsy. *)
Definition truthy (v : float) : bool := negb (is_zero v || is_nan v).

(** [v || d] where [v] is a property read: a missing property reads as
    [undefined], which is falsy. *)
Definition orElse (v : option float) (d : float) : float :=
  match v with
  | Some t => if truthy t then t else d
  | None => d
  end.

(** [ToNumber] on a property read that feeds an arithmetic operator:
    [undefined] becomes [NaN]. *)
Definition toNumber (v : option float) : float :=
  match v with
  | Some t => t
  | None => nan
  end.

(** [a > b] *)
Definition gtb (a b : float) : bool := b <? a.

End JsNum.

(** ** Data model *)

(** The data of one document of the [blocks] collection, as
    [doc.data()] returns it.  Every property may be missing: the
    [block-updated] handler stores whatever subset the client sends. *)
Module Doc.
Record t := mk {
  id : option string;
  x : option float;
  y : option float;
  width : option float;
  height : option float;
  dynamicLoad : option float;
  temperature : option float
}.

Definition empty : t := mk None None None None None None None.

(** [{ temperature: v }] written over the document. *)
Definition setTemperature (v : float) (d : t) : t :=
  mk (id d) (x d) (y d) (width d) (height d) (dynamicLoad d) (Some v).
End Doc.

(** A block object: [{ id: doc.id, ...doc.data() }] on the server, and the
    [updatedBlock] payload a client sends. *)
Module Block.
Record t := mk {
  id : string;
  x : option float;
  y : option float;
  width : option float;
  height : option float;
  dynamicLoad : option float;
  temperature : option float
}.
End Block.

(** The [blocks] collection: document id to document data. *)
Abbreviation Store := (gmap string Doc.t).

(** [{ id: doc.id, ...doc.data() }]: the spread comes second, so an [id]
    property stored in the data overrides the document id. *)
Definition toBlock (docId : string) (d : Doc.t) : Block.t :=
  Block.mk (default docId (Doc.id d))
           (Doc.x d) (Doc.y d) (Doc.width d) (Doc.height d)
           (Doc.dynamicLoad d) (Doc.temperature d).

(** [querySnapshot.forEach(doc => blocks.push(...))] *)
Definition getBlocks (s : Store) : list Block.t :=
  (fun kd => toBlock kd.1 kd.2) <$> map_to_list s.

(** ** The simulation tick *)

Section Tick.

Import JsNum.
Local Open Scope float_scope.

Definition ambient : float := 20.
Definition coolingFactor : float := 0.90.

(** Lines 116-119: the padded bounding-box test. *)
Definition isNeighbor (block other : Block.t) : bool :=
  let x b := toNumber (Block.x b) in
  let y b := toNumber (Block.y b) in
  let width b := toNumber (Block.width b) in
  let height b := toNumber (Block.height b) in
  (abs ((x block + width block / 2) - (x other + width other / 2))
     <? (width block / 2 + width other / 2 + 10))
  && (abs ((y block + height block / 2) - (y other + height other / 2))
     <? (height block / 2 + height other / 2 + 10)).

(** Line 106. *)
Definition generatedTemp (block : Block.t) : float :=
  (toNumber (Block.dynamicLoad block) / 100) * 10 + 20.

(** One iteration of the inner loop (lines 112-125) on the pair
    [(neighborsTemp, neighborsCount)]. *)
Definition neighborStep (block : Block.t) (acc : float * float) (other : Block.t)
  : float * float :=
  let '(neighborsTemp, neighborsCount) := acc in
  if String.eqb (Block.id block) (Block.id other) then acc
  else if isNeighbor block other then
    (neighborsTemp + orElse (Block.temperature other) 20, neighborsCount + 1)
  else acc.

(** The body of the outer loop (lines 104-143) for one [block]: the value
    stored under [block.id] in [newTemps]. *)
Definition computeTemp (blocks : list Block.t) (block : Block.t) : float :=
  let '(neighborsTemp, neighborsCount) := fold_left (neighborStep block) blocks (0, 0) in
  let newTemp :=
    if gtb neighborsCount 0 then
      let avgNeighborTemp := neighborsTemp / neighborsCount in
      (generatedTemp block * 0.6) + (avgNeighborTemp * 0.4)
    else generatedTemp block in
  ambient + (newTemp - ambient) * coolingFactor.

(** Step A (lines 101-144): the loop that fills the [newTemps] map. *)
Definition stepA_body (blocks : list Block.t) (newTemps : gmap string float)
    (block : Block.t) : gmap string float :=
  <[Block.id block := computeTemp blocks block]> newTemps.

Definition stepA (blocks : list Block.t) : gmap string float :=
  fold_left (stepA_body blocks) blocks ∅.

(** The guard of line 150. *)
Definition exceedsThreshold (block : Block.t) (newTemperature : float) : bool :=
  gtb (abs (orElse (Block.temperature block) 20 - newTemperature)) 0.1.

(** Step B (lines 147-153): the [transaction.update] calls, in order, as
    pairs of a document id and the [temperature] to write. *)
Definition stepB_body (newTemps : gmap string float)
    (writes : list (string * float)) (block : Block.t) : list (string * float) :=
  let newTemperature := toNumber (newTemps !! Block.id block) in
  if exceedsThreshold block newTemperature
  then writes ++ [(Block.id block, newTemperature)]
  else writes.

Definition stepB (blocks : list Block.t) (newTemps : gmap string float)
  : list (string * float) :=
  fold_left (stepB_body newTemps) blocks [].

(** The writes one tick queues for a snapshot [blocks]. *)
Definition tickWrites (blocks : list Block.t) : list (string * float) :=
  stepB blocks (stepA blocks).

End Tick.

(** ** The store *)

(** The document store behind [db] is the Firestore SDK, whose code is not
    part of this repository: only its calls are.  Its operations are
    modelled from the store interface the spec gives. *)
Module Firestore.

(** Modelled from the spec: the writes a transaction or a batch queues on
    the store, which the repository only calls: [update(ref, { temperature })]
    and [delete(ref)]. *)
Inductive write :=
| Update (docId : string) (temperature : float)
| Delete (docId : string).

(** Modelled from the spec: the effect of one queued write, missing from
    the repository.  [update] rewrites the given field of an existing record
    and fails when there is no such record; [delete] removes the record if
    present and is a no-op otherwise. *)
Definition apply (w : write) (s : Store) : option Store :=
  match w with
  | Update docId v =>
      match s !! docId with
      | Some d => Some (<[docId := Doc.setTemperature v d]> s)
      | None => None
      end
  | Delete docId => Some (delete docId s)
  end.

(** Modelled from the spec: the writes of one transaction or batch applied
    in order, missing from the repository; one failing write fails them
    all. *)
Fixpoint applyAll (ws : list write) (s : Store) : option Store :=
  match ws with
  | [] => Some s
  | w :: ws' =>
      match apply w s with
      | Some s' => applyAll ws' s'
      | None => None
      end
  end.

(** Modelled from the spec: the atomic commit of a transaction or a batch
    ([runTransaction], [batch.commit]), missing from the repository: all of
    the writes or none.  [up] is the store's answer to the request as a
    whole; [None] is the rejected promise. *)
Definition commit (up : bool) (ws : list write) (s : Store) : option Store :=
  if up then applyAll ws s else None.

(** Modelled from the spec: one field of a merge write, missing from the
    repository: a field of the payload replaces the stored one, a field the
    payload lacks leaves it. *)
Definition mergeField {A} (new old : option A) : option A :=
  match new with
  | Some v => Some v
  | None => old
  end.

(** Modelled from the spec: [set(data, { merge: true })] on the record
    [old], missing from the repository; the payload carries its [id], which
    is stored with the other fields. *)
Definition merge (data : Block.t) (old : option Doc.t) : Doc.t :=
  let o := default Doc.empty old in
  Doc.mk (Some (Block.id data))
         (mergeField (Block.x data) (Doc.x o))
         (mergeField (Block.y data) (Doc.y o))
         (mergeField (Block.width data) (Doc.width o))
         (mergeField (Block.height data) (Doc.height o))
         (mergeField (Block.dynamicLoad data) (Doc.dynamicLoad o))
         (mergeField (Block.temperature data) (Doc.temperature o)).

(** Modelled from the spec: the upsert-merge request
    [doc(docId).set(data, { merge: true })], missing from the repository: it
    creates the record when there is none. *)
Definition setMerge (up : bool) (docId : string) (data : Block.t) (s : Store)
  : option Store :=
  if up then Some (<[docId := merge data (s !! docId)]> s) else None.

End Firestore.

(** ** The handlers *)

(** The outcome of a handler: the collection afterwards, and whether the
    request went through ([ok = false]: the error was logged and dropped). *)
Record Outcome := { ok : bool; after : Store }.

Definition settle (s : Store) (r : option Store) : Outcome :=
  match r with
  | Some s' => {| ok := true; after := s' |}
  | None => {| ok := false; after := s |}
  end.

(** [transaction.update(blocksRef.doc(id), { temperature: v })] *)
Definition toUpdate (w : string * float) : Firestore.write :=
  Firestore.Update w.1 w.2.

(** Lines 89-160: the transaction reads the collection, returns at once when
    it is empty, and otherwise queues the writes of steps A and B. *)
Definition runSimulationTick (up : bool) (s : Store) : Outcome :=
  let blocks := getBlocks s in
  match blocks with
  | [] => settle s (Firestore.commit up [] s)
  | _ => settle s (Firestore.commit up (toUpdate <$> tickWrites blocks) s)
  end.

(** Lines 58-62: [socket.on('block-updated', ...)]. *)
Definition blockUpdated (up : bool) (updatedBlock : Block.t) (s : Store) : Outcome :=
  settle s (Firestore.setMerge up (Block.id updatedBlock) updatedBlock s).

(** Lines 65-69: [socket.on('block-deleted', ...)]. *)
Definition blockDeleted (up : bool) (blockId : string) (s : Store) : Outcome :=
  settle s (Firestore.commit up [Firestore.Delete blockId] s).

(** Lines 72-85: [socket.on('clear-canvas', ...)]. *)
Definition clearCanvas (up : bool) (s : Store) : Outcome :=
  settle s (Firestore.commit up (Firestore.Delete <$> (map_to_list s).*1) s).

(** ** Definitions the statements use *)

Section Statements.

Import JsNum.
Local Open Scope float_scope.

(** The centre of a block's rectangle, from its top-left corner and its
    extent. *)
Definition cx (b : Block.t) : float :=
  toNumber (Block.x b) + toNumber (Block.width b) / 2.
Definition cy (b : Block.t) : float :=
  toNumber (Block.y b) + toNumber (Block.height b) / 2.

(** [block] has no neighbour in the snapshot [blocks]. *)
Definition isolatedIn (blocks : list Block.t) (block : Block.t) : Prop :=
  Forall (fun other => Block.id other ≠ Block.id block →
                       isNeighbor block other = false) blocks.

(** The temperature the spec gives for an isolated block of load [L]. *)
Definition isolatedTemp (L : float) : float :=
  20 + 0.9 * ((L / 100 * 10 + 20) - 20).

(** The temperatures a block's neighbours in the snapshot are read at:
    the other blocks that pass the neighbour test, each at its stored
    temperature or the default. *)
Definition neighborTemps (snapshot : list Block.t) (block : Block.t) : list float :=
  (fun other => orElse (Block.temperature other) 20)
    <$> filter (fun other => Block.id block ≠ Block.id other
                             ∧ isNeighbor block other = true) snapshot.

(** The length of a list as a number, counted up from zero. *)
Definition count {A} (l : list A) : float :=
  fold_left (fun c _ => c + 1) l 0.

(** The mean of a sequence of temperatures: their sum from left to right
    over their number. *)
Definition mean (temps : list float) : float :=
  fold_left PrimFloat.add temps 0 / count temps.

(** The heat model of the spec, [nextTemperature(block, neighborTemps)]:
    generated heat, blended with the mean of the neighbours' temperatures
    when there is a neighbour, then cooled toward ambient. *)
Definition nextTemperature (block : Block.t) (temps : list float) : float :=
  let generated := (toNumber (Block.dynamicLoad block) / 100) * 10 + 20 in
  let blended :=
    match temps with
    | [] => generated
    | _ :: _ => 0.6 * generated + 0.4 * mean temps
    end in
  20 + (blended - 20) * 0.9.

(** The simultaneous whole-collection update [T(t+1) = F(T(t))]: every
    block's next temperature, each from the heat model on the snapshot
    alone. *)
Definition F (snapshot : list Block.t) : list (string * float) :=
  (fun b => (Block.id b, nextTemperature b (neighborTemps snapshot b))) <$> snapshot.

(** The writes of the simultaneous update: the pairs of [F] that move a
    block's temperature by more than the threshold. *)
Definition simultaneousWrite (snapshot : list Block.t) (b : Block.t)
  : option (string * float) :=
  let t := nextTemperature b (neighborTemps snapshot b) in
  if exceedsThreshold b t then Some (Block.id b, t) else None.

Definition simultaneousWrites (snapshot : list Block.t) : list (string * float) :=
  omap (simultaneousWrite snapshot) snapshot.

(** What one iteration of the write loop adds to the queue. *)
Definition queued (newTemps : gmap string float) (b : Block.t) : option (string * float) :=
  let t := toNumber (newTemps !! Block.id b) in
  if exceedsThreshold b t then Some (Block.id b, t) else None.

(** A stored temperature of zero replaced by a missing one. *)
Definition zeroAsAbsent (b : Block.t) : Block.t :=
  match Block.temperature b with
  | Some t =>
      if is_zero t
      then Block.mk (Block.id b) (Block.x b) (Block.y b) (Block.width b)
                    (Block.height b) (Block.dynamicLoad b) None
      else b
  | None => b
  end.

End Statements.

(** Every document's own [id] property, when it has one, is the id it is
    stored under: what [block-updated] writes. *)
Definition wf (s : Store) : Prop :=
  map_Forall (fun k d => default k (Doc.id d) = k) s.

#[global] Instance wf_dec (s : Store) : Decision (wf s).
Proof. unfold wf. apply _. Defined.

#[global] Instance isolatedIn_dec (blocks : list Block.t) (block : Block.t) :
  Decision (isolatedIn blocks block).
Proof. unfold isolatedIn. apply _. Defined.

(** A binary64 value that is [+infinity] or a positive number whose
    exponent is at least -52: every number a count of one or more is. *)
Definition atLeastOne (x : spec_float) : Prop :=
  match x with
  | S754_infinity false => True
  | S754_finite false _ e => (-52 <= e)%Z
  | _ => False
  end.

(** Two documents that differ at most in [temperature]. *)
Definition sameButTemperature (d d' : Doc.t) : Prop :=
  Doc.id d' = Doc.id d ∧ Doc.x d' = Doc.x d ∧ Doc.y d' = Doc.y d ∧
  Doc.width d' = Doc.width d ∧ Doc.height d' = Doc.height d ∧
  Doc.dynamicLoad d' = Doc.dynamicLoad d.

(** [new] written over [prior] gives [result]: a field the payload has
    replaces the stored one, a field it lacks keeps it. *)
Definition writtenOver {A} (new prior result : option A) : Prop :=
  match new with
  | Some v => result = Some v
  | None => result = prior
  end.

(** Every record of [s] is in [s'] with at most its [temperature] changed,
    and [s'] has no other record. *)
Definition frame (s s' : Store) : Prop :=
  ∀ k, option_Forall2 sameButTemperature (s !! k) (s' !! k).

(** The collection after a run of ticks; [ups] says, tick by tick, whether
    the store let the transaction through. *)
Definition ticks (ups : list bool) (s : Store) : Store :=
  fold_left (fun s up => after (runSimulationTick up s)) ups s.

(** What stays true of an isolated block of load [load] under ticks. *)
Definition isolatedAt (k : string) (load : option float) (s : Store) : Prop :=
  wf s ∧ ∃ d, s !! k = Some d ∧ Doc.dynamicLoad d = load
              ∧ isolatedIn (getBlocks s) (toBlock k d).

(** What reaches the collection: a tick, or one of the three edits, each
    with the store's answer. *)
Inductive event :=
| Tick (up : bool)
| BlockUpdated (up : bool) (updatedBlock : Block.t)
| BlockDeleted (up : bool) (blockId : string)
| ClearCanvas (up : bool).

Definition handle (s : Store) (e : event) : Store :=
  match e with
  | Tick up => after (runSimulationTick up s)
  | BlockUpdated up updatedBlock => after (blockUpdated up updatedBlock s)
  | BlockDeleted up blockId => after (blockDeleted up blockId s)
  | ClearCanvas up => after (clearCanvas up s)
  end.

Definition run (events : list event) (s : Store) : Store :=
  fold_left handle events s.

(** ** A sample collection *)

Module Sample.

Local Open Scope float_scope.

(** Two adjacent blocks, the spec's example for the simultaneous update:
    [A] under full load, [B] idle with no temperature yet. *)
Definition dA : Doc.t :=
  Doc.mk (Some "A") (Some 0) (Some 0) (Some 100) (Some 100) (Some 100) (Some 20).
Definition dB : Doc.t :=
  Doc.mk (Some "B") (Some 105) (Some 0) (Some 100) (Some 100) (Some 0) None.
(** A far-away block at half load whose stored temperature is zero. *)
Definition dC : Doc.t :=
  Doc.mk (Some "C") (Some 500) (Some 500) (Some 10) (Some 10) (Some 50) (Some 0).
(** A far-away idle block with no temperature. *)
Definition dD : Doc.t :=
  Doc.mk (Some "D") (Some (-500)) (Some 900) (Some 10) (Some 10) (Some 0) None.

Definition store : Store :=
  <["A" := dA]> (<["B" := dB]> (<["C" := dC]> (<["D" := dD]> ∅))).

Definition blocks : list Block.t :=
  [toBlock "A" dA; toBlock "B" dB; toBlock "C" dC; toBlock "D" dD].

End Sample.

(** ** The broadcast and further definitions *)

(** Lines 38-44: the payload of [blocks-updated], built by the snapshot
    listener with [forEach] and [push]. *)
Definition blocksUpdated (s : Store) : list Block.t :=
  fold_left (fun blocks kd => blocks ++ [toBlock kd.1 kd.2]) (map_to_list s) [].

(** Every record carries an [id] property equal to the id it is stored
    under: what [block-updated] writes with every edit. *)
Definition stamped (s : Store) : Prop :=
  map_Forall (fun k d => Doc.id d = Some k) s.

#[global] Instance stamped_dec (s : Store) : Decision (stamped s).
Proof. unfold stamped. apply _. Defined.

(** The blocks of a broadcast sent back, one [block-updated] each, to a
    store that lets every request through. *)
Definition replay (blocks : list Block.t) (s : Store) : Store :=
  fold_left (fun s b => after (blockUpdated true b s)) blocks s.

(** The payload that carries the fields of [later] over those of
    [earlier]. *)
Definition overlay (later earlier : Block.t) : Block.t :=
  Block.mk (Block.id later)
           (Firestore.mergeField (Block.x later) (Block.x earlier))
           (Firestore.mergeField (Block.y later) (Block.y earlier))
           (Firestore.mergeField (Block.width later) (Block.width earlier))
           (Firestore.mergeField (Block.height later) (Block.height earlier))
           (Firestore.mergeField (Block.dynamicLoad later) (Block.dynamicLoad earlier))
           (Firestore.mergeField (Block.temperature later) (Block.temperature earlier)).

(** The same block with another stored temperature. *)
Definition withTemperature (t : option float) (b : Block.t) : Block.t :=
  Block.mk (Block.id b) (Block.x b) (Block.y b) (Block.width b) (Block.height b)
           (Block.dynamicLoad b) t.

(** A block that lacks one of the four properties of its rectangle. *)
Definition missingGeometry (b : Block.t) : Prop :=
  Block.x b = None ∨ Block.y b = None ∨ Block.width b = None ∨ Block.height b = None.

(** More sample blocks: one created by an edit that carried only a
    position, one with negative extents, one without a load. *)
Module Sample2.

Local Open Scope float_scope.

Definition dMoved : Doc.t :=
  Doc.mk (Some "E") (Some 10) (Some 10) None None (Some 80) None.
Definition dNegative : Doc.t :=
  Doc.mk (Some "N") (Some 0) (Some 0) (Some (-30)) (Some (-30)) (Some 10) (Some 21).
Definition dNoLoad : Doc.t :=
  Doc.mk (Some "L") (Some 50) (Some 0) (Some 100) (Some 100) None (Some 23).

Definition store : Store :=
  <["A" := Sample.dA]> (<["L" := dNoLoad]> (<["E" := dMoved]> ∅)).

Definition fresh : Block.t :=
  Block.mk "Z" (Some 1) (Some 2) (Some 3) (Some 4) (Some 5) None.

End Sample2.

(** ** Facts of binary64 arithmetic *)

Section SpecFloatFacts.

Variables prec emax : Z.

Lemma SFadd_comm (a b : spec_float) : SFadd prec emax a b = SFadd prec emax b a.
Proof.
  destruct a as [[]|[]| |sa ma ea], b as [[]|[]| |sb mb eb]; try reflexivity.
  cbn. rewrite (Z.min_comm ea eb). f_equal. apply Z.add_comm.
Qed.

Lemma SFmul_comm (a b : spec_float) : SFmul prec emax a b = SFmul prec emax b a.
Proof.
  destruct a as [[]|[]| |sa ma ea], b as [[]|[]| |sb mb eb];
    try reflexivity; cbn; rewrite ?(xorb_comm sb); try reflexivity.
  all: try (destruct sa; reflexivity).
  rewrite (Pos.mul_comm mb ma), (Z.add_comm eb ea). reflexivity.
Qed.

Lemma SFabs_binary_round_aux (s : bool) m e l :
  SFabs (binary_round_aux prec emax s m e l) = SFabs (binary_round_aux prec emax false m e l).
Proof.
  unfold binary_round_aux.
  destruct (shr_fexp prec emax m e l) as [mrs' e'].
  destruct (shr_fexp prec emax _ e' loc_Exact) as [mrs'' e''].
  destruct (shr_m mrs''); try reflexivity.
  destruct (Z.leb e'' (Z.sub emax prec)); reflexivity.
Qed.

Lemma SFabs_binary_round (s : bool) m e :
  SFabs (binary_round prec emax s m e) = SFabs (binary_round prec emax false m e).
Proof.
  unfold binary_round.
  destruct (shl_align m e _) as [mz ez]. apply SFabs_binary_round_aux.
Qed.

Lemma SFabs_binary_normalize_opp m e :
  SFabs (binary_normalize prec emax (- m) e false) = SFabs (binary_normalize prec emax m e false).
Proof.
  destruct m as [|p|p]; cbn; try reflexivity.
  - apply SFabs_binary_round.
  - symmetry. apply SFabs_binary_round.
Qed.

Lemma SFabs_sub_swap (a b : spec_float) :
  SFabs (SFsub prec emax a b) = SFabs (SFsub prec emax b a).
Proof.
  destruct a as [[]|[]| |sa ma ea], b as [[]|[]| |sb mb eb]; try reflexivity.
  cbn. rewrite (Z.min_comm eb ea).
  rewrite <- SFabs_binary_normalize_opp. f_equal. f_equal. lia.
Qed.

End SpecFloatFacts.

Section FloatFacts.

Local Open Scope float_scope.

Lemma float_add_comm (a b : float) : a + b = b + a.
Proof.
  apply Prim2SF_inj. rewrite !add_spec. apply SFadd_comm.
Qed.

Lemma float_mul_comm (a b : float) : a * b = b * a.
Proof.
  apply Prim2SF_inj. rewrite !mul_spec. apply SFmul_comm.
Qed.

Lemma float_abs_sub_swap (a b : float) : abs (a - b) = abs (b - a).
Proof.
  apply Prim2SF_inj. rewrite !abs_spec, !sub_spec. apply SFabs_sub_swap.
Qed.

(** A count only goes up from one: adding 1 to a number that is at least
    one, in the sense of [atLeastOne], gives such a number again, whatever
    the rounding, so a count of one or more compares above zero.  The
    lemmas follow the rounding of [SFadd] step by step. *)

Lemma digits2_pos_size (p : positive) : digits2_pos p = Pos.size p.
Proof. induction p; cbn; congruence. Qed.

Lemma shr_1_m (r : shr_record) :
  (0 <= shr_m r)%Z -> shr_m (shr_1 r) = Z.div2 (shr_m r).
Proof.
  destruct r as [m b1 b2]. cbn [shr_m]. intros Hm.
  destruct m as [|[p|p|]|p]; cbn; try reflexivity. lia.
Qed.

Lemma iter_pos_shr_1_m (n : positive) (r : shr_record) :
  (0 <= shr_m r)%Z -> shr_m (SpecFloat.iter_pos shr_1 n r) = Z.shiftr (shr_m r) (Zpos n).
Proof.
  revert r. induction n as [n IH|n IH|]; intros r Hr; cbn [SpecFloat.iter_pos].
  - assert (0 <= shr_m (shr_1 r))%Z as H1.
    { rewrite shr_1_m by lia. apply Z.div2_nonneg. lia. }
    assert (0 <= shr_m (SpecFloat.iter_pos shr_1 n (shr_1 r)))%Z as H2.
    { rewrite IH by lia. apply Z.shiftr_nonneg. lia. }
    rewrite IH, IH, shr_1_m by lia.
    rewrite Z.div2_spec, !Z.shiftr_shiftr by lia. f_equal. lia.
  - assert (0 <= shr_m (SpecFloat.iter_pos shr_1 n r))%Z as H2.
    { rewrite IH by lia. apply Z.shiftr_nonneg. lia. }
    rewrite IH, IH by lia. rewrite !Z.shiftr_shiftr by lia. f_equal. lia.
  - rewrite shr_1_m by lia. apply Z.div2_spec.
Qed.

Lemma shiftr_pos (p : positive) (n : Z) :
  (0 <= n < Zpos (Pos.size p))%Z -> exists q, Z.shiftr (Zpos p) n = Zpos q.
Proof.
  intros Hn. assert (0 < Z.shiftr (Zpos p) n)%Z as H.
  { rewrite Z.shiftr_div_pow2 by lia. apply Z.div_str_pos. split; [lia|].
    pose proof (Pos.size_le p) as Hle.
    assert (2 ^ Zpos (Pos.size p) <= 2 * Zpos p)%Z as Hz.
    { change (2 * Zpos p)%Z with (Zpos (p~0)). rewrite <- Pos2Z.inj_pow.
      apply Pos2Z.pos_le_pos. exact Hle. }
    assert (2 ^ (n + 1) <= 2 ^ Zpos (Pos.size p))%Z by (apply Z.pow_le_mono_r; lia).
    rewrite Z.pow_add_r in H by lia. lia. }
  destruct (Z.shiftr (Zpos p) n); try lia. eauto.
Qed.

Lemma shr_keeps_positive (p : positive) (b1 b2 : bool) (e n : Z) :
  (n < Zpos (Pos.size p))%Z ->
  exists q b1' b2' e',
    shr (Build_shr_record (Zpos p) b1 b2) e n = (Build_shr_record (Zpos q) b1' b2', e')
    /\ (e <= e')%Z.
Proof.
  intros Hn. destruct n as [|n|n]; cbn [shr].
  - exists p, b1, b2, e. split; [reflexivity|lia].
  - destruct (shiftr_pos p (Zpos n)) as [q Hq]; [lia|].
    pose proof (iter_pos_shr_1_m n (Build_shr_record (Zpos p) b1 b2)) as Hm.
    cbn [shr_m] in Hm. rewrite Hq in Hm.
    destruct (SpecFloat.iter_pos shr_1 n _) as [m' b1' b2']. cbn [shr_m] in Hm.
    exists q, b1', b2', (e + Zpos n)%Z. rewrite Hm by lia. split; [reflexivity|lia].
  - exists p, b1, b2, e. split; [reflexivity|lia].
Qed.

Lemma shr_fexp_keeps_positive (p : positive) (e : Z) (l : location) :
  (-52 <= e)%Z ->
  exists q b1 b2 e',
    shr_fexp prec emax (Zpos p) e l = (Build_shr_record (Zpos q) b1 b2, e')
    /\ (e <= e')%Z.
Proof.
  intros He. unfold shr_fexp.
  assert (exists b1 b2, shr_record_of_loc (Zpos p) l = Build_shr_record (Zpos p) b1 b2)
    as (b1 & b2 & ->) by (destruct l as [|[]]; cbn; eauto).
  apply shr_keeps_positive.
  cbn [Zdigits2]. rewrite digits2_pos_size. unfold fexp, SpecFloat.emin, prec, emax. lia.
Qed.

Lemma binary_round_aux_atLeastOne (p : positive) (e : Z) :
  (-52 <= e)%Z -> atLeastOne (binary_round_aux prec emax false (Zpos p) e loc_Exact).
Proof.
  intros He. unfold binary_round_aux.
  destruct (shr_fexp_keeps_positive p e loc_Exact He) as (q & b1 & b2 & e' & -> & He').
  assert (exists q', round_nearest_even (shr_m (Build_shr_record (Zpos q) b1 b2))
                       (loc_of_shr_record (Build_shr_record (Zpos q) b1 b2)) = Zpos q')
    as (q' & ->).
  { cbn [shr_m]. destruct b1, b2; cbn [loc_of_shr_record round_nearest_even].
    all: try (destruct (Z.even (Zpos q))). all: cbn [Z.add]. all: try (eexists; reflexivity). }
  destruct (shr_fexp_keeps_positive q' e' loc_Exact) as (q2 & c1 & c2 & e2 & -> & He2);
    [lia|].
  cbn [shr_m]. destruct (Z.leb e2 _); cbn; [lia|exact I].
Qed.

Lemma binary_round_atLeastOne (p : positive) :
  (2 ^ 52 <= Zpos p)%Z -> atLeastOne (binary_round prec emax false p (-52)).
Proof.
  intros Hp. unfold binary_round.
  assert (53 <= Zpos (Pos.size p))%Z as Hsize.
  { pose proof (Pos.size_gt p) as Hgt.
    assert (Zpos p < 2 ^ Zpos (Pos.size p))%Z as Hz.
    { rewrite <- Pos2Z.inj_pow. apply Pos2Z.pos_lt_pos. exact Hgt. }
    destruct (Z.le_gt_cases 53 (Zpos (Pos.size p))) as [|Hlt]; [done|].
    assert (2 ^ Zpos (Pos.size p) <= 2 ^ 52)%Z by (apply Z.pow_le_mono_r; lia).
    lia. }
  rewrite digits2_pos_size. unfold shl_align, fexp, SpecFloat.emin, prec, emax.
  destruct (Z.max _ _ - -52)%Z eqn:Hd; try lia;
    apply binary_round_aux_atLeastOne; lia.
Qed.

Lemma SFadd_one_atLeastOne (x : spec_float) :
  atLeastOne x -> atLeastOne (SF64add x (S754_finite false 4503599627370496 (-52))).
Proof.
  destruct x as [s|[]| |[] m e]; cbn [atLeastOne]; try done. intros He.
  unfold SF64add, SFadd. rewrite Z.min_r by lia.
  cbn [cond_Zopp].
  destruct (shl_align m e (-52)) as [m' e1] eqn:H1. cbn [fst].
  change (fst (shl_align 4503599627370496 (-52) (-52))) with 4503599627370496%positive.
  cbn [Z.add binary_normalize]. apply binary_round_atLeastOne.
  change (2 ^ 52)%Z with 4503599627370496%Z. lia.
Qed.

Lemma float_add_one_atLeastOne (c : float) :
  atLeastOne (Prim2SF c) → atLeastOne (Prim2SF (c + 1)).
Proof.
  intros Hc. rewrite add_spec.
  change (Prim2SF 1) with (S754_finite false 4503599627370496 (-52)).
  by apply SFadd_one_atLeastOne.
Qed.

Lemma float_atLeastOne_gtb (c : float) : atLeastOne (Prim2SF c) → JsNum.gtb c 0 = true.
Proof.
  intros Hc. unfold JsNum.gtb. rewrite ltb_spec.
  change (Prim2SF 0) with (S754_zero false).
  by destruct (Prim2SF c) as [s|[]| |[] m e].
Qed.

Lemma count_loop_atLeastOne {A} (l : list A) (c : float) :
  atLeastOne (Prim2SF c) →
  atLeastOne (Prim2SF (fold_left (fun c _ => c + 1) l c)).
Proof.
  revert c. induction l as [|a l IH]; intros c Hc; [done|].
  cbn [fold_left]. by apply IH, float_add_one_atLeastOne.
Qed.

(** The count of a non-empty list is positive. *)
Lemma count_positive {A} (a : A) (l : list A) : JsNum.gtb (count (a :: l)) 0 = true.
Proof.
  apply float_atLeastOne_gtb. unfold count. cbn [fold_left].
  apply count_loop_atLeastOne. change (0 + 1) with 1. by vm_compute.
Qed.

End FloatFacts.

(** ** The neighbour test *)

Section Neighbor.

Import JsNum.
Local Open Scope float_scope.

Lemma isNeighbor_unfold (a b : Block.t) :
  isNeighbor a b =
    (abs (cx a - cx b)
       <? toNumber (Block.width a) / 2 + toNumber (Block.width b) / 2 + 10)
    && (abs (cy a - cy b)
       <? toNumber (Block.height a) / 2 + toNumber (Block.height b) / 2 + 10).
Proof. reflexivity. Qed.

(** The test reads the rectangles only. *)
Lemma isNeighbor_geometry (a a' b b' : Block.t) :
  Block.x a' = Block.x a → Block.y a' = Block.y a →
  Block.width a' = Block.width a → Block.height a' = Block.height a →
  Block.x b' = Block.x b → Block.y b' = Block.y b →
  Block.width b' = Block.width b → Block.height b' = Block.height b →
  isNeighbor a' b' = isNeighbor a b.
Proof.
  intros Hx Hy Hw Hh Hx' Hy' Hw' Hh'. unfold isNeighbor.
  rewrite Hx, Hy, Hw, Hh, Hx', Hy', Hw', Hh'. reflexivity.
Qed.

(** C3: for every pair of blocks (so for every pair with distinct ids, the
    only pairs the tick tests), [isNeighbor a b] holds if and only if
    [|cx a - cx b| < width a / 2 + width b / 2 + 10] and
    [|cy a - cy b| < height a / 2 + height b / 2 + 10], both strict, with
    [cx], [cy] the centres computed from the top-left corner and the
    extent. *)
Theorem isNeighbor_iff (a b : Block.t) :
  isNeighbor a b = true ↔
    (abs (cx a - cx b)
       <? toNumber (Block.width a) / 2 + toNumber (Block.width b) / 2 + 10) = true
    ∧ (abs (cy a - cy b)
       <? toNumber (Block.height a) / 2 + toNumber (Block.height b) / 2 + 10) = true.
Proof.
  rewrite isNeighbor_unfold. apply andb_true_iff.
Qed.

(** C9: the neighbour relation is symmetric. *)
Theorem isNeighbor_sym (a b : Block.t) : isNeighbor a b = isNeighbor b a.
Proof.
  rewrite !isNeighbor_unfold.
  rewrite (float_abs_sub_swap (cx a) (cx b)), (float_abs_sub_swap (cy a) (cy b)).
  rewrite (float_add_comm (toNumber (Block.width a) / 2)).
  rewrite (float_add_comm (toNumber (Block.height a) / 2)).
  reflexivity.
Qed.

End Neighbor.

(** ** The compute loop and the write loop *)

Section Loops.

Import JsNum.
Local Open Scope float_scope.

Lemma eqb_id_false (a b : Block.t) :
  Block.id a ≠ Block.id b → String.eqb (Block.id b) (Block.id a) = false.
Proof.
  intros Hne. apply String.eqb_neq. congruence.
Qed.

Lemma neighborStep_skip (block other : Block.t) (acc : float * float) :
  (Block.id other ≠ Block.id block → isNeighbor block other = false) →
  neighborStep block acc other = acc.
Proof.
  intros Hiso. unfold neighborStep. destruct acc as [t c].
  destruct (String.eqb_spec (Block.id block) (Block.id other)) as [_|Hne];
    [reflexivity|].
  rewrite Hiso by congruence. reflexivity.
Qed.

Lemma neighborLoop_isolated (block : Block.t) (l : list Block.t) (acc : float * float) :
  isolatedIn l block → fold_left (neighborStep block) l acc = acc.
Proof.
  induction l as [|other l IH]; intros Hiso; [reflexivity|].
  apply Forall_cons in Hiso as [Hother Hiso].
  cbn [fold_left]. rewrite neighborStep_skip by done. by apply IH.
Qed.

Lemma computeTemp_isolated (blocks : list Block.t) (block : Block.t) :
  isolatedIn blocks block →
  computeTemp blocks block = isolatedTemp (toNumber (Block.dynamicLoad block)).
Proof.
  intros Hiso. unfold computeTemp.
  rewrite (neighborLoop_isolated _ _ _ Hiso).
  change (gtb 0 0) with false. cbv iota.
  unfold isolatedTemp, generatedTemp, ambient, coolingFactor.
  apply f_equal, float_mul_comm.
Qed.

(** The inner loop sums and counts the temperatures of the neighbours in
    the snapshot, in snapshot order. *)
Lemma neighborLoop_neighborTemps (block : Block.t) (l : list Block.t) (t c : float) :
  fold_left (neighborStep block) l (t, c)
  = (fold_left PrimFloat.add (neighborTemps l block) t,
     fold_left (fun c _ => c + 1) (neighborTemps l block) c).
Proof.
  revert t c. induction l as [|other l IH]; intros t c; [done|].
  cbn [fold_left]. unfold neighborTemps in *. rewrite filter_cons.
  unfold neighborStep at 2.
  destruct (String.eqb_spec (Block.id block) (Block.id other)) as [Heq|Hne].
  - rewrite decide_False by tauto. apply IH.
  - destruct (isNeighbor block other) eqn:Hnb.
    + rewrite decide_True by done. rewrite fmap_cons. cbn [fold_left]. apply IH.
    + rewrite decide_False by (intros [_ ?]; done). apply IH.
Qed.

(** The value computed for a block is the spec's heat model on the
    temperatures its neighbours have in the snapshot: the loop's test
    [neighborsCount > 0] holds exactly when there is a neighbour. *)
Lemma computeTemp_nextTemperature (blocks : list Block.t) (block : Block.t) :
  computeTemp blocks block = nextTemperature block (neighborTemps blocks block).
Proof.
  unfold computeTemp, nextTemperature. rewrite neighborLoop_neighborTemps.
  unfold ambient, coolingFactor, generatedTemp, mean.
  destruct (neighborTemps blocks block) as [|t ts] eqn:Hts.
  - reflexivity.
  - change (fold_left (fun c _ => c + 1) (t :: ts) 0) with (count (t :: ts)).
    rewrite count_positive.
    rewrite (float_mul_comm 0.6), (float_mul_comm 0.4). reflexivity.
Qed.

Lemma simultaneousWrite_unfold (blocks : list Block.t) (b : Block.t) :
  simultaneousWrite blocks b
  = if exceedsThreshold b (computeTemp blocks b)
    then Some (Block.id b, computeTemp blocks b) else None.
Proof. unfold simultaneousWrite. by rewrite <- computeTemp_nextTemperature. Qed.

(** The compute loop leaves under every id it has not met what the map
    held, and under the id of a block it met the temperature computed for
    that block from the snapshot. *)
Lemma stepA_loop_notin (blocks l : list Block.t) (m : gmap string float) (k : string) :
  k ∉ Block.id <$> l →
  fold_left (stepA_body blocks) l m !! k = m !! k.
Proof.
  revert m. induction l as [|b l IH]; intros m Hk; [reflexivity|].
  cbn [fold_left]. rewrite fmap_cons in Hk. apply not_elem_of_cons in Hk as [Hne Hk].
  rewrite IH by done. unfold stepA_body. by rewrite lookup_insert_ne.
Qed.

Lemma stepA_loop_in (blocks l : list Block.t) (m : gmap string float) (b : Block.t) :
  NoDup (Block.id <$> l) → b ∈ l →
  fold_left (stepA_body blocks) l m !! Block.id b = Some (computeTemp blocks b).
Proof.
  revert m. induction l as [|b' l IH]; intros m Hnd Hb.
  - by apply elem_of_nil in Hb.
  - rewrite fmap_cons in Hnd. apply NoDup_cons in Hnd as [Hfresh Hnd].
    cbn [fold_left]. apply elem_of_cons in Hb as [->|Hb].
    + rewrite stepA_loop_notin by done.
      unfold stepA_body. by rewrite lookup_insert_eq.
    + by apply IH.
Qed.

Lemma stepA_lookup (blocks : list Block.t) (b : Block.t) :
  NoDup (Block.id <$> blocks) → b ∈ blocks →
  stepA blocks !! Block.id b = Some (computeTemp blocks b).
Proof. apply stepA_loop_in. Qed.

Lemma stepA_lookup_None (blocks : list Block.t) (k : string) :
  k ∉ Block.id <$> blocks → stepA blocks !! k = None.
Proof.
  intros Hk. unfold stepA. rewrite stepA_loop_notin by done. apply lookup_empty.
Qed.

(** The write loop queues, in snapshot order, one write per block that
    passes the guard. *)
Lemma stepB_loop (newTemps : gmap string float) (l : list Block.t)
    (writes : list (string * float)) :
  fold_left (stepB_body newTemps) l writes = writes ++ omap (queued newTemps) l.
Proof.
  revert writes. induction l as [|b l IH]; intros writes.
  - cbn. by rewrite app_nil_r.
  - cbn [fold_left omap list_omap]. rewrite IH. unfold stepB_body, queued.
    destruct (exceedsThreshold b _); [by rewrite <- app_assoc|done].
Qed.

Lemma stepB_omap (blocks : list Block.t) (newTemps : gmap string float) :
  stepB blocks newTemps = omap (queued newTemps) blocks.
Proof. unfold stepB. by rewrite stepB_loop. Qed.

Lemma omap_ext_in {A B} (f g : A → option B) (l : list A) :
  (∀ a, a ∈ l → f a = g a) → omap f l = omap g l.
Proof.
  induction l as [|a l IH]; intros Hfg; [done|].
  cbn. rewrite (Hfg a) by by left.
  rewrite IH; [done|]. intros a' Ha'. apply Hfg. by right.
Qed.

Lemma tickWrites_simultaneous (blocks : list Block.t) :
  NoDup (Block.id <$> blocks) → tickWrites blocks = simultaneousWrites blocks.
Proof.
  intros Hnd. unfold tickWrites, simultaneousWrites. rewrite stepB_omap.
  apply omap_ext_in. intros b Hb. rewrite simultaneousWrite_unfold. unfold queued.
  by rewrite (stepA_lookup _ _ Hnd Hb).
Qed.

Lemma stepA_F (blocks : list Block.t) :
  NoDup (Block.id <$> blocks) → stepA blocks = list_to_map (F blocks).
Proof.
  intros Hnd. apply map_eq. intros k.
  destruct (decide (k ∈ Block.id <$> blocks)) as [Hin|Hout].
  - apply list_elem_of_fmap in Hin as (b & -> & Hb).
    rewrite (stepA_lookup _ _ Hnd Hb). symmetry.
    apply elem_of_list_to_map_1.
    + unfold F. rewrite <- list_fmap_compose. exact Hnd.
    + unfold F. apply list_elem_of_fmap. exists b.
      by rewrite computeTemp_nextTemperature.
  - rewrite stepA_lookup_None by done. symmetry.
    apply not_elem_of_list_to_map_1. unfold F.
    by rewrite <- list_fmap_compose.
Qed.

(** C2: a tick is a function of the snapshot taken at its start.  For a
    snapshot with distinct ids, the map the compute loop builds is the
    simultaneous update [F] of the snapshot; every entry is the spec's heat
    model on the block's own load and the temperatures its neighbours have
    in the snapshot, never a temperature computed in the same tick; and the
    compute loop followed by the write loop queues exactly the writes of
    that simultaneous update. *)
Theorem tick_is_simultaneous (blocks : list Block.t) :
  NoDup (Block.id <$> blocks) →
  stepA blocks = list_to_map (F blocks)
  ∧ (∀ b, b ∈ blocks →
          stepA blocks !! Block.id b
          = Some (nextTemperature b (neighborTemps blocks b)))
  ∧ stepB blocks (stepA blocks) = simultaneousWrites blocks.
Proof.
  intros Hnd. split; [by apply stepA_F|]. split.
  - intros b Hb. rewrite <- computeTemp_nextTemperature. by apply stepA_lookup.
  - by apply tickWrites_simultaneous.
Qed.

End Loops.

(** ** What a tick leaves alone *)

Section Frame.

Lemma sameButTemperature_refl (d : Doc.t) : sameButTemperature d d.
Proof. by repeat split. Qed.

Lemma sameButTemperature_trans (d1 d2 d3 : Doc.t) :
  sameButTemperature d1 d2 → sameButTemperature d2 d3 → sameButTemperature d1 d3.
Proof.
  intros (?&?&?&?&?&?) (?&?&?&?&?&?). repeat split; congruence.
Qed.

Lemma sameButTemperature_set (v : float) (d : Doc.t) :
  sameButTemperature d (Doc.setTemperature v d).
Proof. by repeat split. Qed.

Lemma frame_refl (s : Store) : frame s s.
Proof.
  intros k. destruct (s !! k); constructor. apply sameButTemperature_refl.
Qed.

Lemma frame_trans (s1 s2 s3 : Store) : frame s1 s2 → frame s2 s3 → frame s1 s3.
Proof.
  intros H12 H23 k. specialize (H12 k). specialize (H23 k).
  destruct H12 as [d1 d2 H|]; inversion H23; subst; constructor.
  by eapply sameButTemperature_trans.
Qed.

Lemma frame_update (s : Store) (k : string) (v : float) (d : Doc.t) :
  s !! k = Some d → frame s (<[k := Doc.setTemperature v d]> s).
Proof.
  intros Hk k'. destruct (decide (k = k')) as [<-|Hne].
  - rewrite lookup_insert_eq, Hk. constructor. apply sameButTemperature_set.
  - rewrite lookup_insert_ne by done. apply frame_refl.
Qed.

Lemma applyAll_updates_frame (ws : list (string * float)) (s s' : Store) :
  Firestore.applyAll (toUpdate <$> ws) s = Some s' → frame s s'.
Proof.
  revert s. induction ws as [|[k v] ws IH]; intros s H.
  - injection H as <-. apply frame_refl.
  - cbn in H. destruct (s !! k) as [d|] eqn:Hk; [|done].
    eapply frame_trans; [by apply frame_update|by apply IH].
Qed.

Lemma settle_frame (s : Store) (r : option Store) :
  (∀ s', r = Some s' → frame s s') → frame s (after (settle s r)).
Proof.
  intros H. destruct r as [s'|]; cbn; [by apply H|apply frame_refl].
Qed.

Lemma runSimulationTick_frame (up : bool) (s : Store) :
  frame s (after (runSimulationTick up s)).
Proof.
  unfold runSimulationTick.
  destruct (getBlocks s) as [|b l]; apply settle_frame; intros s' H;
    destruct up; try done; cbn [Firestore.commit] in H.
  - injection H as <-. apply frame_refl.
  - by apply applyAll_updates_frame in H.
Qed.

Lemma ticks_frame (ups : list bool) (s : Store) : frame s (ticks ups s).
Proof.
  revert s. induction ups as [|up ups IH]; intros s; [apply frame_refl|].
  cbn. eapply frame_trans; [apply runSimulationTick_frame|apply IH].
Qed.

Lemma frame_dom (s s' : Store) : frame s s' → dom s' = dom s.
Proof.
  intros H. apply set_eq. intros k. rewrite !elem_of_dom.
  specialize (H k). inversion H; split; intros [? ?]; by eauto.
Qed.

Lemma frame_lookup (s s' : Store) (k : string) (d : Doc.t) :
  frame s s' → s !! k = Some d →
  ∃ d', s' !! k = Some d' ∧ sameButTemperature d d'.
Proof.
  intros H Hk. specialize (H k). rewrite Hk in H. inversion H; subst. by eauto.
Qed.

Lemma frame_lookup_inv (s s' : Store) (k : string) (d' : Doc.t) :
  frame s s' → s' !! k = Some d' →
  ∃ d, s !! k = Some d ∧ sameButTemperature d d'.
Proof.
  intros H Hk. specialize (H k). rewrite Hk in H. inversion H; subst. by eauto.
Qed.

Lemma frame_wf (s s' : Store) : frame s s' → wf s → wf s'.
Proof.
  intros H Hwf k d' Hk.
  destruct (frame_lookup_inv _ _ _ _ H Hk) as (d & Hd & Hid & _).
  rewrite Hid. by apply Hwf.
Qed.

(** C5: a tick changes no block's [x], [y], [width], [height],
    [dynamicLoad] or [id]: every record is still there afterwards with at
    most its [temperature] rewritten, and the set of ids in the store is
    the same, so no block is created or deleted. *)
Theorem tick_writes_only_temperature (up : bool) (s : Store) :
  dom (after (runSimulationTick up s)) = dom s
  ∧ ∀ k d, s !! k = Some d →
      ∃ d', after (runSimulationTick up s) !! k = Some d'
            ∧ Doc.id d' = Doc.id d ∧ Doc.x d' = Doc.x d ∧ Doc.y d' = Doc.y d
            ∧ Doc.width d' = Doc.width d ∧ Doc.height d' = Doc.height d
            ∧ Doc.dynamicLoad d' = Doc.dynamicLoad d.
Proof.
  pose proof (runSimulationTick_frame up s) as H. split.
  - by apply frame_dom.
  - intros k d Hk. by apply (frame_lookup _ _ _ _ H).
Qed.

End Frame.

(** ** The snapshot and the committed writes *)

Section Commit.

Import JsNum.
Local Open Scope float_scope.

Lemma elem_of_getBlocks (s : Store) (b : Block.t) :
  b ∈ getBlocks s ↔ ∃ k d, s !! k = Some d ∧ b = toBlock k d.
Proof.
  unfold getBlocks. rewrite list_elem_of_fmap. split.
  - intros ([k d] & -> & Hkd). apply elem_of_map_to_list in Hkd. by exists k, d.
  - intros (k & d & Hkd & ->). exists (k, d). split; [done|].
    by apply elem_of_map_to_list.
Qed.

Lemma toBlock_id_wf (s : Store) (k : string) (d : Doc.t) :
  wf s → s !! k = Some d → Block.id (toBlock k d) = k.
Proof. intros Hwf Hk. by apply Hwf. Qed.

Lemma getBlocks_ids (s : Store) :
  wf s → Block.id <$> getBlocks s = (map_to_list s).*1.
Proof.
  intros Hwf. unfold getBlocks. rewrite <- list_fmap_compose.
  apply list_fmap_ext. intros i [k d] Hi. cbn.
  apply Hwf. apply elem_of_map_to_list. by eapply list_elem_of_lookup_2.
Qed.

Lemma getBlocks_NoDup (s : Store) : wf s → NoDup (Block.id <$> getBlocks s).
Proof.
  intros Hwf. rewrite getBlocks_ids by done. apply NoDup_fst_map_to_list.
Qed.

(** The ids of the queued writes are ids of the snapshot, in order. *)
Lemma simultaneousWrites_NoDup (l blocks : list Block.t) :
  NoDup (Block.id <$> l) →
  NoDup (omap (simultaneousWrite blocks) l).*1.
Proof.
  induction l as [|b l IH]; intros Hnd; [constructor|].
  rewrite fmap_cons in Hnd. apply NoDup_cons in Hnd as [Hfresh Hnd].
  cbn [omap list_omap]. rewrite simultaneousWrite_unfold.
  destruct (exceedsThreshold b (computeTemp blocks b)); [|by apply IH].
  rewrite fmap_cons. apply NoDup_cons. split; [|by apply IH].
  cbn [fst]. intros Hin. apply Hfresh.
  apply list_elem_of_fmap in Hin as ([k v] & Hkv & Hin). cbn in Hkv.
  apply list_elem_of_omap in Hin as (b' & Hb' & Hq).
  apply list_elem_of_fmap. exists b'. split; [|done].
  rewrite simultaneousWrite_unfold in Hq.
  destruct (exceedsThreshold b' (computeTemp blocks b')); by simplify_eq.
Qed.

(** A batch of updates on records that exist, one per id, goes through
    and rewrites the [temperature] of exactly the records it names. *)
Lemma applyAll_updates (ws : list (string * float)) (s : Store) :
  NoDup ws.*1 →
  (∀ k v, (k, v) ∈ ws → is_Some (s !! k)) →
  ∃ s', Firestore.applyAll (toUpdate <$> ws) s = Some s'
        ∧ ∀ k, s' !! k =
               match (list_to_map ws : gmap string float) !! k with
               | Some v => Doc.setTemperature v <$> s !! k
               | None => s !! k
               end.
Proof.
  revert s. induction ws as [|[k v] ws IH]; intros s Hnd Hdom.
  - exists s. split; [done|]. intros k. cbn. by rewrite lookup_empty.
  - rewrite fmap_cons in Hnd. apply NoDup_cons in Hnd as [Hfresh Hnd]. cbn in Hfresh.
    destruct (Hdom k v) as [d Hk]; [by left|].
    destruct (IH (<[k := Doc.setTemperature v d]> s) Hnd) as (s' & Hs' & Hlk).
    { intros k' v' Hin. destruct (decide (k = k')) as [<-|Hne].
      - rewrite lookup_insert_eq. by eexists.
      - rewrite lookup_insert_ne by done. apply (Hdom k' v'). by right. }
    exists s'. split.
    { cbn. by rewrite Hk. }
    intros k'. rewrite Hlk. cbn [list_to_map foldr]. cbn.
    destruct (decide (k = k')) as [<-|Hne].
    + rewrite (not_elem_of_list_to_map_1 ws k) by done.
      by rewrite !lookup_insert_eq, Hk.
    + by rewrite !lookup_insert_ne by done.
Qed.

(** What a queued write says, over a well-formed store. *)
Lemma elem_of_tickWrites (s : Store) (k : string) (d : Doc.t) (v : float) :
  wf s → s !! k = Some d →
  (k, v) ∈ tickWrites (getBlocks s) ↔
    exceedsThreshold (toBlock k d) (computeTemp (getBlocks s) (toBlock k d)) = true
    ∧ v = computeTemp (getBlocks s) (toBlock k d).
Proof.
  intros Hwf Hk.
  rewrite (tickWrites_simultaneous _ (getBlocks_NoDup _ Hwf)).
  unfold simultaneousWrites. rewrite list_elem_of_omap. split.
  - intros (b & Hb & Hq). apply elem_of_getBlocks in Hb as (k' & d' & Hk' & ->).
    rewrite simultaneousWrite_unfold, (toBlock_id_wf _ _ _ Hwf Hk') in Hq.
    destruct (exceedsThreshold (toBlock k' d') _) eqn:Hex; [|done].
    injection Hq as -> <-.
    assert (d' = d) as -> by congruence. by split.
  - intros [Hex ->]. exists (toBlock k d). split.
    + apply elem_of_getBlocks. by exists k, d.
    + rewrite simultaneousWrite_unfold, Hex.
      by rewrite (toBlock_id_wf _ _ _ Hwf Hk).
Qed.

Lemma tickWrites_NoDup (s : Store) : wf s → NoDup (tickWrites (getBlocks s)).*1.
Proof.
  intros Hwf. rewrite (tickWrites_simultaneous _ (getBlocks_NoDup _ Hwf)).
  apply simultaneousWrites_NoDup. by apply getBlocks_NoDup.
Qed.

Lemma tickWrites_targets (s : Store) (k : string) (v : float) :
  wf s → (k, v) ∈ tickWrites (getBlocks s) → is_Some (s !! k).
Proof.
  intros Hwf. rewrite (tickWrites_simultaneous _ (getBlocks_NoDup _ Hwf)).
  unfold simultaneousWrites. rewrite list_elem_of_omap.
  intros (b & Hb & Hq). apply elem_of_getBlocks in Hb as (k' & d' & Hk' & ->).
  rewrite simultaneousWrite_unfold, (toBlock_id_wf _ _ _ Hwf Hk') in Hq.
  destruct (exceedsThreshold (toBlock k' d') _); [|done].
  injection Hq as -> _. by eexists.
Qed.

(** The record of a block after a tick over a well-formed store. *)
Lemma runSimulationTick_lookup (up : bool) (s : Store) (k : string) (d : Doc.t) :
  wf s → s !! k = Some d →
  ok (runSimulationTick up s) = up
  ∧ after (runSimulationTick up s) !! k =
      Some (if up && exceedsThreshold (toBlock k d)
                                      (computeTemp (getBlocks s) (toBlock k d))
            then Doc.setTemperature (computeTemp (getBlocks s) (toBlock k d)) d
            else d).
Proof.
  intros Hwf Hk. unfold runSimulationTick.
  destruct (getBlocks s) as [|b0 l] eqn:Hbs.
  { exfalso. assert (toBlock k d ∈ getBlocks s) as Hin
      by (apply elem_of_getBlocks; by exists k, d).
    rewrite Hbs in Hin. by apply elem_of_nil in Hin. }
  rewrite <- Hbs. clear b0 l Hbs.
  destruct up; cbn [Firestore.commit andb]; [|by split].
  destruct (applyAll_updates (tickWrites (getBlocks s)) s) as (s' & Hs' & Hlk).
  { by apply tickWrites_NoDup. }
  { intros k' v'. by apply tickWrites_targets. }
  rewrite Hs'. cbn [settle ok after]. split; [done|].
  rewrite Hlk, Hk.
  destruct (exceedsThreshold (toBlock k d) (computeTemp (getBlocks s) (toBlock k d)))
    eqn:Hex.
  - erewrite (elem_of_list_to_map_1 _ k); [done|by apply tickWrites_NoDup|].
    apply (elem_of_tickWrites s k d); by auto.
  - rewrite (not_elem_of_list_to_map_1 _ k); [done|].
    intros Hin. apply list_elem_of_fmap in Hin as ([k' v] & Hkv & Hin).
    cbn in Hkv. subst k'.
    apply (elem_of_tickWrites s k d v Hwf Hk) in Hin as [Hex' _]. congruence.
Qed.

End Commit.

(** ** Isolated blocks *)

Section Isolated.

Import JsNum.
Local Open Scope float_scope.

Lemma toBlock_sameButTemperature (k : string) (d d' : Doc.t) :
  sameButTemperature d d' →
  Block.id (toBlock k d') = Block.id (toBlock k d)
  ∧ Block.x (toBlock k d') = Block.x (toBlock k d)
  ∧ Block.y (toBlock k d') = Block.y (toBlock k d)
  ∧ Block.width (toBlock k d') = Block.width (toBlock k d)
  ∧ Block.height (toBlock k d') = Block.height (toBlock k d).
Proof.
  intros (Hid & Hx & Hy & Hw & Hh & _). cbn. by rewrite Hid, Hx, Hy, Hw, Hh.
Qed.

(** Isolation is a matter of ids and rectangles, which a tick keeps. *)
Lemma frame_isolated (s s' : Store) (k : string) (d d' : Doc.t) :
  frame s s' → sameButTemperature d d' →
  isolatedIn (getBlocks s) (toBlock k d) →
  isolatedIn (getBlocks s') (toBlock k d').
Proof.
  intros Hfr Hdd Hiso. unfold isolatedIn in *. rewrite Forall_forall in *.
  intros other' Hin Hne.
  apply elem_of_getBlocks in Hin as (k1 & d1' & Hk1 & ->).
  destruct (frame_lookup_inv _ _ _ _ Hfr Hk1) as (d1 & Hd1 & H11).
  destruct (toBlock_sameButTemperature k d d' Hdd) as (Eid & Ex & Ey & Ew & Eh).
  destruct (toBlock_sameButTemperature k1 d1 d1' H11) as (Eid1 & Ex1 & Ey1 & Ew1 & Eh1).
  rewrite (isNeighbor_geometry (toBlock k d) _ (toBlock k1 d1) _) by done.
  apply Hiso.
  - apply elem_of_getBlocks. by exists k1, d1.
  - congruence.
Qed.

Lemma isolatedAt_frame (k : string) (load : option float) (s s' : Store) :
  frame s s' → isolatedAt k load s → isolatedAt k load s'.
Proof.
  intros Hfr (Hwf & d & Hk & Hload & Hiso). split; [by eapply frame_wf|].
  destruct (frame_lookup _ _ _ _ Hfr Hk) as (d' & Hk' & Hdd).
  exists d'. split; [done|]. split.
  - destruct Hdd as (_&_&_&_&_&Hl). congruence.
  - by eapply frame_isolated.
Qed.

Lemma isolatedAt_computed (k : string) (load : option float) (s : Store) :
  isolatedAt k load s →
  stepA (getBlocks s) !! k = Some (isolatedTemp (toNumber load)).
Proof.
  intros (Hwf & d & Hk & <- & Hiso).
  rewrite <- (toBlock_id_wf s k d Hwf Hk) at 1.
  rewrite stepA_lookup.
  - by rewrite (computeTemp_isolated _ _ Hiso).
  - by apply getBlocks_NoDup.
  - apply elem_of_getBlocks. by exists k, d.
Qed.

(** Once the stored temperature of an isolated block is the isolated
    value, a tick either leaves the record or writes that value again. *)
Lemma isolated_stored_tick (k : string) (load : option float) (up : bool) (s : Store) :
  isolatedAt k load s →
  Doc.temperature <$> s !! k = Some (Some (isolatedTemp (toNumber load))) →
  Doc.temperature <$> after (runSimulationTick up s) !! k
    = Some (Some (isolatedTemp (toNumber load))).
Proof.
  intros (Hwf & d & Hk & <- & Hiso) Ht.
  destruct (runSimulationTick_lookup up s k d Hwf Hk) as [_ ->].
  rewrite Hk in Ht. cbn in Ht. injection Ht as Ht. cbn.
  rewrite (computeTemp_isolated _ _ Hiso).
  destruct (up && _); cbn; [done|by rewrite Ht].
Qed.

Lemma isolated_stored_ticks (k : string) (load : option float) (ups : list bool)
    (s : Store) :
  isolatedAt k load s →
  Doc.temperature <$> s !! k = Some (Some (isolatedTemp (toNumber load))) →
  Doc.temperature <$> ticks ups s !! k
    = Some (Some (isolatedTemp (toNumber load))).
Proof.
  revert s. induction ups as [|up ups IH]; intros s Hiso Ht; [done|].
  cbn. apply IH.
  - eapply isolatedAt_frame; [apply runSimulationTick_frame|done].
  - by apply isolated_stored_tick.
Qed.

Lemma isolatedTemp_50 : isolatedTemp 50 = 24.5.
Proof. reflexivity. Qed.

(** C1: a block with no neighbour in the snapshot and [dynamicLoad = L]
    gets [20 + 0.9 * ((L/100*10+20) - 20)] as its new temperature in one
    tick, which is 24.5 for [L = 50]; ticks keep it isolated with the same
    load, so every later tick computes exactly that value again; and once a
    tick has written it, the stored temperature stays exactly that
    value. *)
Theorem isolated_block_temperature (s : Store) (k : string) (d : Doc.t) :
  wf s → s !! k = Some d → isolatedIn (getBlocks s) (toBlock k d) →
  let L := toNumber (Doc.dynamicLoad d) in
  computeTemp (getBlocks s) (toBlock k d) = isolatedTemp L
  ∧ (∀ ups, stepA (getBlocks (ticks ups s)) !! k = Some (isolatedTemp L))
  ∧ (∀ ups, exceedsThreshold (toBlock k d) (isolatedTemp L) = true →
            Doc.temperature <$> ticks (true :: ups) s !! k
              = Some (Some (isolatedTemp L)))
  ∧ isolatedTemp 50 = 24.5.
Proof.
  intros Hwf Hk Hiso L.
  assert (isolatedAt k (Doc.dynamicLoad d) s) as Hat.
  { split; [done|]. by exists d. }
  assert (computeTemp (getBlocks s) (toBlock k d) = isolatedTemp L) as Hc
    by exact (computeTemp_isolated _ _ Hiso).
  split; [done|]. split; [|split].
  - intros ups. apply isolatedAt_computed.
    eapply isolatedAt_frame; [apply ticks_frame|done].
  - intros ups Hex. cbn [ticks fold_left]. apply isolated_stored_ticks.
    + eapply isolatedAt_frame; [apply runSimulationTick_frame|done].
    + destruct (runSimulationTick_lookup true s k d Hwf Hk) as [_ ->].
      rewrite Hc, Hex. done.
  - apply isolatedTemp_50.
Qed.

End Isolated.

(** ** The write threshold and the default temperature *)

Section Threshold.

Import JsNum.
Local Open Scope float_scope.

Lemma exceedsThreshold_change (block : Block.t) (newTemperature : float) :
  exceedsThreshold block newTemperature
  = gtb (abs (newTemperature - orElse (Block.temperature block) 20)) 0.1.
Proof.
  unfold exceedsThreshold. by rewrite float_abs_sub_swap.
Qed.

(** C4: in a tick over a store whose records sit under their own ids, the
    write of a block's [temperature] is queued if and only if the new
    temperature computed for it differs from the temperature read for it
    ([temperature || 20]) by more than 0.1 in magnitude; when the
    transaction commits the record then holds the new temperature, and in
    every other case the stored record is left as it was. *)
Theorem write_iff_change_exceeds_threshold (up : bool) (s : Store) (k : string)
    (d : Doc.t) :
  wf s → s !! k = Some d →
  let newTemperature := computeTemp (getBlocks s) (toBlock k d) in
  let changed := gtb (abs (newTemperature - orElse (Doc.temperature d) 20)) 0.1 in
  (∀ v, (k, v) ∈ tickWrites (getBlocks s) ↔ changed = true ∧ v = newTemperature)
  ∧ after (runSimulationTick up s) !! k
    = Some (if up && changed then Doc.setTemperature newTemperature d else d).
Proof.
  intros Hwf Hk newTemperature changed.
  assert (changed = exceedsThreshold (toBlock k d) newTemperature) as ->
    by (symmetry; apply exceedsThreshold_change).
  split.
  - intros v. by apply elem_of_tickWrites.
  - by destruct (runSimulationTick_lookup up s k d Hwf Hk) as [_ ->].
Qed.

Lemma neighborStep_neighbor (block other : Block.t) (acc : float * float) :
  Block.id block ≠ Block.id other → isNeighbor block other = true →
  neighborStep block acc other
  = (acc.1 + orElse (Block.temperature other) 20, acc.2 + 1).
Proof.
  intros Hne Hnb. unfold neighborStep. destruct acc as [t c].
  rewrite (eqb_id_false other block) by congruence. by rewrite Hnb.
Qed.

Lemma generatedTemp_zero (block : Block.t) :
  Block.dynamicLoad block = Some 0 → generatedTemp block = 20.
Proof. intros H. unfold generatedTemp. by rewrite H. Qed.

(** C6: a block whose record has no [temperature] is read as 20 at both
    read sites of a tick: as a neighbour it adds 20 to the sum, and its own
    write guard compares the new temperature with 20.  With no neighbour
    and [dynamicLoad = 0] it computes 20 and its record is left as it is,
    so it stays at ambient. *)
Theorem absent_temperature_is_ambient (up : bool) (s : Store) (k : string)
    (d : Doc.t) (block : Block.t) (acc : float * float) (v : float) :
  wf s → s !! k = Some d → Doc.temperature d = None →
  (Block.id block ≠ k → isNeighbor block (toBlock k d) = true →
     neighborStep block acc (toBlock k d) = (acc.1 + 20, acc.2 + 1))
  ∧ exceedsThreshold (toBlock k d) v = gtb (abs (20 - v)) 0.1
  ∧ (Doc.dynamicLoad d = Some 0 → isolatedIn (getBlocks s) (toBlock k d) →
       generatedTemp (toBlock k d) = 20
       ∧ stepA (getBlocks s) !! k = Some 20
       ∧ after (runSimulationTick up s) !! k = Some d).
Proof.
  intros Hwf Hk Ht. pose proof (toBlock_id_wf s k d Hwf Hk) as Hid.
  split; [|split].
  - intros Hne Hnb. rewrite neighborStep_neighbor by congruence.
    cbn [toBlock Block.temperature]. by rewrite Ht.
  - unfold exceedsThreshold. cbn [toBlock Block.temperature]. by rewrite Ht.
  - intros Hload Hiso.
    assert (computeTemp (getBlocks s) (toBlock k d) = 20) as Hc.
    { rewrite (computeTemp_isolated _ _ Hiso).
      cbn [toBlock Block.dynamicLoad]. by rewrite Hload. }
    split; [by apply generatedTemp_zero|]. split.
    + rewrite <- Hid at 1. rewrite stepA_lookup; [by rewrite Hc| |].
      * by apply getBlocks_NoDup.
      * apply elem_of_getBlocks. by exists k, d.
    + destruct (runSimulationTick_lookup up s k d Hwf Hk) as [_ ->].
      rewrite Hc. unfold exceedsThreshold. cbn [toBlock Block.temperature].
      rewrite Ht. by rewrite andb_false_r.
Qed.

End Threshold.

(** ** A stored zero *)

Section StoredZero.

Import JsNum.
Local Open Scope float_scope.

Lemma orElse_zero (t d : float) : is_zero t = true → orElse (Some t) d = d.
Proof. intros H. unfold orElse, truthy. by rewrite H. Qed.

Lemma zeroAsAbsent_fields (b : Block.t) :
  Block.id (zeroAsAbsent b) = Block.id b
  ∧ Block.x (zeroAsAbsent b) = Block.x b
  ∧ Block.y (zeroAsAbsent b) = Block.y b
  ∧ Block.width (zeroAsAbsent b) = Block.width b
  ∧ Block.height (zeroAsAbsent b) = Block.height b
  ∧ Block.dynamicLoad (zeroAsAbsent b) = Block.dynamicLoad b.
Proof.
  unfold zeroAsAbsent. destruct (Block.temperature b) as [t|]; [|done].
  by destruct (is_zero t).
Qed.

Lemma zeroAsAbsent_read (b : Block.t) (d : float) :
  orElse (Block.temperature (zeroAsAbsent b)) d = orElse (Block.temperature b) d.
Proof.
  unfold zeroAsAbsent. destruct (Block.temperature b) as [t|] eqn:Ht; [|by rewrite Ht].
  destruct (is_zero t) eqn:Hz; [|by rewrite Ht].
  cbn [Block.temperature]. by rewrite orElse_zero.
Qed.

Lemma zeroAsAbsent_isNeighbor (a b : Block.t) :
  isNeighbor (zeroAsAbsent a) (zeroAsAbsent b) = isNeighbor a b.
Proof.
  destruct (zeroAsAbsent_fields a) as (_ & ? & ? & ? & ? & _).
  destruct (zeroAsAbsent_fields b) as (_ & ? & ? & ? & ? & _).
  by apply isNeighbor_geometry.
Qed.

Lemma zeroAsAbsent_neighborStep (block other : Block.t) (acc : float * float) :
  neighborStep (zeroAsAbsent block) acc (zeroAsAbsent other)
  = neighborStep block acc other.
Proof.
  unfold neighborStep.
  destruct (zeroAsAbsent_fields block) as (-> & _).
  destruct (zeroAsAbsent_fields other) as (-> & _).
  by rewrite zeroAsAbsent_isNeighbor, zeroAsAbsent_read.
Qed.

Lemma zeroAsAbsent_neighborLoop (block : Block.t) (l : list Block.t)
    (acc : float * float) :
  fold_left (neighborStep (zeroAsAbsent block)) (zeroAsAbsent <$> l) acc
  = fold_left (neighborStep block) l acc.
Proof.
  revert acc. induction l as [|other l IH]; intros acc; [done|].
  cbn. by rewrite zeroAsAbsent_neighborStep, IH.
Qed.

Lemma zeroAsAbsent_computeTemp (blocks : list Block.t) (block : Block.t) :
  computeTemp (zeroAsAbsent <$> blocks) (zeroAsAbsent block)
  = computeTemp blocks block.
Proof.
  unfold computeTemp, generatedTemp. rewrite zeroAsAbsent_neighborLoop.
  by destruct (zeroAsAbsent_fields block) as (_ & _ & _ & _ & _ & ->).
Qed.

Lemma zeroAsAbsent_stepA_loop (blocks l : list Block.t) (m : gmap string float) :
  fold_left (stepA_body (zeroAsAbsent <$> blocks)) (zeroAsAbsent <$> l) m
  = fold_left (stepA_body blocks) l m.
Proof.
  revert m. induction l as [|b l IH]; intros m; [done|].
  cbn. rewrite IH. unfold stepA_body. rewrite zeroAsAbsent_computeTemp.
  by destruct (zeroAsAbsent_fields b) as (-> & _).
Qed.

Lemma zeroAsAbsent_stepA (blocks : list Block.t) :
  stepA (zeroAsAbsent <$> blocks) = stepA blocks.
Proof. apply zeroAsAbsent_stepA_loop. Qed.

Lemma zeroAsAbsent_exceedsThreshold (b : Block.t) (v : float) :
  exceedsThreshold (zeroAsAbsent b) v = exceedsThreshold b v.
Proof. unfold exceedsThreshold. by rewrite zeroAsAbsent_read. Qed.

Lemma zeroAsAbsent_stepB (blocks : list Block.t) (newTemps : gmap string float) :
  stepB (zeroAsAbsent <$> blocks) newTemps = stepB blocks newTemps.
Proof.
  rewrite !stepB_omap. induction blocks as [|b l IH]; [done|].
  cbn. rewrite IH. unfold queued.
  rewrite zeroAsAbsent_exceedsThreshold.
  by destruct (zeroAsAbsent_fields b) as (-> & _).
Qed.

Lemma zeroAsAbsent_absent (b : Block.t) (t : float) :
  Block.temperature b = Some t → is_zero t = true →
  Block.temperature (zeroAsAbsent b) = None.
Proof. intros Ht Hz. unfold zeroAsAbsent. by rewrite Ht, Hz. Qed.

(** C10: a stored temperature of exactly 0 is read as 20 at both read
    sites of a tick: as a neighbour the block adds 20 to the sum, and its
    own write guard compares the new temperature with 20.  Replacing every
    stored zero of a snapshot by a missing temperature changes neither the
    temperatures the tick computes nor the writes it queues. *)
Theorem stored_zero_reads_as_absent (blocks : list Block.t) (block other : Block.t)
    (acc : float * float) (v : float) :
  Block.temperature other = Some 0 →
  (Block.id block ≠ Block.id other → isNeighbor block other = true →
     neighborStep block acc other = (acc.1 + 20, acc.2 + 1))
  ∧ exceedsThreshold other v = gtb (abs (20 - v)) 0.1
  ∧ Block.temperature (zeroAsAbsent other) = None
  ∧ stepA (zeroAsAbsent <$> blocks) = stepA blocks
  ∧ tickWrites (zeroAsAbsent <$> blocks) = tickWrites blocks.
Proof.
  intros Ht. split; [|split; [|split; [|split]]].
  - intros Hne Hnb. rewrite neighborStep_neighbor by done. by rewrite Ht.
  - unfold exceedsThreshold. by rewrite Ht.
  - by apply (zeroAsAbsent_absent other 0).
  - apply zeroAsAbsent_stepA.
  - unfold tickWrites. by rewrite zeroAsAbsent_stepA, zeroAsAbsent_stepB.
Qed.

End StoredZero.

(** ** The edit handlers *)

Section Edits.

Lemma applyAll_deletes (ks : list string) (s : Store) :
  ∃ s', Firestore.applyAll (Firestore.Delete <$> ks) s = Some s'
        ∧ ∀ k, s' !! k = if decide (k ∈ ks) then None else s !! k.
Proof.
  revert s. induction ks as [|k0 ks IH]; intros s.
  - exists s. split; [done|]. intros k. by rewrite decide_False by apply not_elem_of_nil.
  - destruct (IH (delete k0 s)) as (s' & Hs' & Hlk).
    exists s'. split; [done|]. intros k. rewrite Hlk.
    destruct (decide (k ∈ ks)) as [Hin|Hout].
    + rewrite decide_True; [done|by right].
    + destruct (decide (k = k0)) as [->|Hne].
      * rewrite decide_True by by left. apply lookup_delete_eq.
      * rewrite decide_False by (rewrite elem_of_cons; tauto).
        by rewrite lookup_delete_ne.
Qed.

Lemma clearCanvas_up (s : Store) : clearCanvas true s = {| ok := true; after := ∅ |}.
Proof.
  unfold clearCanvas. cbn [Firestore.commit].
  destruct (applyAll_deletes (map_to_list s).*1 s) as (s' & -> & Hlk).
  cbn. f_equal. apply map_eq. intros k. rewrite Hlk, lookup_empty.
  destruct (decide _) as [|Hout]; [done|].
  destruct (s !! k) as [d|] eqn:Hk; [|done].
  exfalso. apply Hout. apply list_elem_of_fmap. exists (k, d).
  split; [done|]. by apply elem_of_map_to_list.
Qed.

Lemma getBlocks_empty : getBlocks ∅ = [].
Proof. unfold getBlocks. by rewrite map_to_list_empty. Qed.

(** C8: with no edit in between, a [clear-canvas] the store accepts
    removes every record: the handler reports success, the collection
    afterwards is empty and a read of it returns no block.  A [clear-canvas]
    the store rejects reports failure and leaves the collection exactly as it
    was.  So the handler succeeds exactly when the store accepts, and the
    collection afterwards is either empty or what it was, never a part of
    it. *)
Theorem clearCanvas_all_or_nothing (up : bool) (s : Store) :
  clearCanvas true s = {| ok := true; after := ∅ |}
  ∧ getBlocks (after (clearCanvas true s)) = []
  ∧ clearCanvas false s = {| ok := false; after := s |}
  ∧ ok (clearCanvas up s) = up
  ∧ (ok (clearCanvas up s) = true →
       after (clearCanvas up s) = ∅ ∧ getBlocks (after (clearCanvas up s)) = [])
  ∧ (after (clearCanvas up s) = ∅ ∨ after (clearCanvas up s) = s).
Proof.
  pose proof (clearCanvas_up s) as Hup.
  split; [exact Hup|]. split; [rewrite Hup; apply getBlocks_empty|].
  split; [reflexivity|].
  destruct up.
  - rewrite Hup. cbn [ok after]. split; [reflexivity|]. split; [|by left].
    intros _. split; [reflexivity|apply getBlocks_empty].
  - cbn. split; [reflexivity|]. split; [done|by right].
Qed.

Lemma writtenOver_mergeField {A} (new prior : option A) :
  writtenOver new prior (Firestore.mergeField new prior).
Proof. by destruct new. Qed.

(** C7: [block-updated] writes the fields the payload has onto the record
    under the payload's id, which it creates when there is none, and every
    field the payload lacks keeps the value the record had; a payload
    without [temperature] leaves the stored temperature as it was.  No
    other record changes. *)
Theorem blockUpdated_merges (updatedBlock : Block.t) (s : Store) :
  let k := Block.id updatedBlock in
  let prior := default Doc.empty (s !! k) in
  let s' := after (blockUpdated true updatedBlock s) in
  ∃ d', s' !! k = Some d'
    ∧ Doc.id d' = Some k
    ∧ writtenOver (Block.x updatedBlock) (Doc.x prior) (Doc.x d')
    ∧ writtenOver (Block.y updatedBlock) (Doc.y prior) (Doc.y d')
    ∧ writtenOver (Block.width updatedBlock) (Doc.width prior) (Doc.width d')
    ∧ writtenOver (Block.height updatedBlock) (Doc.height prior) (Doc.height d')
    ∧ writtenOver (Block.dynamicLoad updatedBlock) (Doc.dynamicLoad prior)
                  (Doc.dynamicLoad d')
    ∧ writtenOver (Block.temperature updatedBlock) (Doc.temperature prior)
                  (Doc.temperature d')
    ∧ (Block.temperature updatedBlock = None →
         Doc.temperature d' = Doc.temperature prior)
    ∧ (∀ k', k' ≠ k → s' !! k' = s !! k').
Proof.
  intros k prior s'.
  exists (Firestore.merge updatedBlock (s !! k)).
  split; [apply lookup_insert_eq|]. split; [done|].
  repeat (split; [apply writtenOver_mergeField|]).
  split.
  - intros Ht. cbn. by rewrite Ht.
  - intros k' Hne. subst s'. cbn. by rewrite lookup_insert_ne.
Qed.

(** The handlers keep every record under its own id. *)
Lemma blockUpdated_wf (up : bool) (updatedBlock : Block.t) (s : Store) :
  wf s → wf (after (blockUpdated up updatedBlock s)).
Proof.
  intros Hwf. destruct up; [|done]. cbn.
  apply map_Forall_insert_2; [done|exact Hwf].
Qed.

Lemma blockDeleted_wf (up : bool) (blockId : string) (s : Store) :
  wf s → wf (after (blockDeleted up blockId s)).
Proof.
  intros Hwf. destruct up; [|done]. cbn. by apply map_Forall_delete.
Qed.

Lemma runSimulationTick_wf (up : bool) (s : Store) :
  wf s → wf (after (runSimulationTick up s)).
Proof. apply frame_wf, runSimulationTick_frame. Qed.

End Edits.

(** ** Stores the handlers can produce *)

Section Reachable.

Lemma clearCanvas_wf (up : bool) (s : Store) : wf s → wf (after (clearCanvas up s)).
Proof.
  intros Hwf. destruct up; [|done]. rewrite clearCanvas_up. apply map_Forall_empty.
Qed.

Lemma handle_wf (s : Store) (e : event) : wf s → wf (handle s e).
Proof.
  destruct e; cbn [handle].
  - apply runSimulationTick_wf.
  - apply blockUpdated_wf.
  - apply blockDeleted_wf.
  - apply clearCanvas_wf.
Qed.

(** Starting from the empty collection, whatever the ticks and edits,
    every record sits under its own id, so the blocks of every snapshot
    have distinct ids. *)
Lemma run_wf (events : list event) (s : Store) : wf s → wf (run events s).
Proof.
  revert s. induction events as [|e events IH]; intros s Hwf; [done|].
  cbn. by apply IH, handle_wf.
Qed.

Lemma reachable_wf (events : list event) : wf (run events ∅).
Proof. apply run_wf, map_Forall_empty. Qed.

Lemma reachable_NoDup (events : list event) :
  NoDup (Block.id <$> getBlocks (run events ∅)).
Proof. apply getBlocks_NoDup, reachable_wf. Qed.

End Reachable.

(** ** The theorems on the sample collection *)

Section OnSample.

Import JsNum Sample.
Local Open Scope float_scope.

Ltac by_evaluation := apply (bool_decide_unpack _); vm_compute; exact I.

Lemma sample_wf : wf store.
Proof. by_evaluation. Defined.

Lemma sample_NoDup : NoDup (Block.id <$> blocks).
Proof. by_evaluation. Defined.

Lemma sample_C_isolated : isolatedIn (getBlocks store) (toBlock "C" dC).
Proof. by_evaluation. Defined.

Lemma sample_D_isolated : isolatedIn (getBlocks store) (toBlock "D" dD).
Proof. by_evaluation. Defined.

(** The spec's example: [A] (load 100) and [B] (load 0), adjacent, both
    read at 20.  One tick computes 25.4 for [A] from [B]'s 20, and 20 for
    [B] from [A]'s 20, not from [A]'s new 25.4. *)
Example sample_simultaneous :
  computeTemp blocks (toBlock "A" dA) = 25.399999999999999
  ∧ computeTemp blocks (toBlock "B" dB) = 20
  ∧ tickWrites blocks = [("A", 25.399999999999999); ("C", 24.5)].
Proof. by vm_compute. Qed.

(** What [temperature || 20] reads: zero of either sign and [NaN] give the
    default, any other number gives itself. *)
Example orElse_reads :
  orElse None 20 = 20 ∧ orElse (Some 0) 20 = 20 ∧ orElse (Some (-0)) 20 = 20
  ∧ orElse (Some nan) 20 = 20 ∧ orElse (Some 24.5) 20 = 24.5.
Proof. by vm_compute. Qed.

(** A move of [A] that carries no temperature keeps the stored one, and a
    clear that goes through leaves nothing. *)
Example sample_edits :
  after (blockUpdated true (Block.mk "A" (Some 7) (Some 9) None None None None) store)
    !! "A"
  = Some (Doc.mk (Some "A") (Some 7) (Some 9) (Some 100) (Some 100) (Some 100) (Some 20))
  ∧ map_to_list (after (clearCanvas true store)) = [].
Proof. by vm_compute. Qed.

(** The stored zero of [C] is read as 20, so the first tick writes 24.5
    over it; the idle [D] and [B] are left without a temperature. *)
Example sample_tick :
  Doc.temperature <$> after (runSimulationTick true store) !! "C" = Some (Some 24.5)
  ∧ Doc.temperature <$> after (runSimulationTick true store) !! "D" = Some None
  ∧ Doc.temperature <$> after (runSimulationTick true store) !! "B" = Some None
  ∧ after (runSimulationTick false store) = store.
Proof. by vm_compute. Qed.

Lemma isolated_block_temperature_witness :
  computeTemp (getBlocks store) (toBlock "C" dC) = 24.5
  ∧ stepA (getBlocks (ticks [true; false; true] store)) !! "C" = Some 24.5
  ∧ Doc.temperature <$> ticks [true; true; true] store !! "C" = Some (Some 24.5).
Proof.
  destruct (isolated_block_temperature store "C" dC sample_wf eq_refl
              sample_C_isolated) as (H1 & H2 & H3 & _).
  split; [exact H1|]. split; [exact (H2 [true; false; true])|].
  exact (H3 [true; true] eq_refl).
Defined.

Lemma tick_is_simultaneous_witness :
  stepA blocks = list_to_map (F blocks)
  ∧ stepB blocks (stepA blocks) = simultaneousWrites blocks.
Proof.
  destruct (tick_is_simultaneous blocks sample_NoDup) as (H1 & _ & H3).
  split; [exact H1|exact H3].
Defined.

Lemma write_iff_change_exceeds_threshold_witness :
  after (runSimulationTick true store) !! "A"
    = Some (Doc.setTemperature 25.399999999999999 dA)
  ∧ after (runSimulationTick true store) !! "B" = Some dB.
Proof.
  split.
  - exact (proj2 (write_iff_change_exceeds_threshold true store "A" dA
                    sample_wf eq_refl)).
  - exact (proj2 (write_iff_change_exceeds_threshold true store "B" dB
                    sample_wf eq_refl)).
Defined.

Lemma absent_temperature_is_ambient_witness :
  neighborStep (toBlock "A" dA) (0, 0) (toBlock "B" dB) = (0 + 20, 0 + 1)
  ∧ exceedsThreshold (toBlock "D" dD) 20.05 = gtb (abs (20 - 20.05)) 0.1
  ∧ stepA (getBlocks store) !! "D" = Some 20
  ∧ after (runSimulationTick true store) !! "D" = Some dD.
Proof.
  destruct (absent_temperature_is_ambient true store "B" dB (toBlock "A" dA)
              (0, 0) 20.05 sample_wf eq_refl eq_refl) as (HB & _ & _).
  destruct (absent_temperature_is_ambient true store "D" dD (toBlock "A" dA)
              (0, 0) 20.05 sample_wf eq_refl eq_refl) as (_ & HD2 & HD3).
  destruct (HD3 eq_refl sample_D_isolated) as (_ & HD4 & HD5).
  split; [|split; [|split]].
  - apply HB; [by_evaluation|reflexivity].
  - exact HD2.
  - exact HD4.
  - exact HD5.
Defined.

Lemma stored_zero_reads_as_absent_witness :
  exceedsThreshold (toBlock "C" dC) 24.5 = gtb (abs (20 - 24.5)) 0.1
  ∧ Block.temperature (zeroAsAbsent (toBlock "C" dC)) = None
  ∧ tickWrites (zeroAsAbsent <$> blocks) = tickWrites blocks.
Proof.
  destruct (stored_zero_reads_as_absent blocks (toBlock "A" dA) (toBlock "C" dC)
              (0, 0) 24.5 eq_refl) as (_ & H2 & H3 & _ & H5).
  split; [exact H2|]. split; [exact H3|exact H5].
Defined.

End OnSample.

(** ** Missing and degenerate numbers *)

Section NotANumber.

Import JsNum.
Local Open Scope float_scope.

Lemma Prim2SF_nan : Prim2SF nan = S754_nan.
Proof. reflexivity. Qed.

Lemma float_add_nan_l (a : float) : nan + a = nan.
Proof. apply Prim2SF_inj. by rewrite add_spec, Prim2SF_nan. Qed.

Lemma float_add_nan_r (a : float) : a + nan = nan.
Proof.
  apply Prim2SF_inj. rewrite add_spec, Prim2SF_nan.
  by destruct (Prim2SF a) as [[]|[]| |[] m e].
Qed.

Lemma float_sub_nan_l (a : float) : nan - a = nan.
Proof. apply Prim2SF_inj. by rewrite sub_spec, Prim2SF_nan. Qed.

Lemma float_sub_nan_r (a : float) : a - nan = nan.
Proof.
  apply Prim2SF_inj. rewrite sub_spec, Prim2SF_nan.
  by destruct (Prim2SF a) as [[]|[]| |[] m e].
Qed.

Lemma float_mul_nan_r (a : float) : a * nan = nan.
Proof.
  apply Prim2SF_inj. rewrite mul_spec, Prim2SF_nan.
  by destruct (Prim2SF a) as [[]|[]| |[] m e].
Qed.

Lemma float_ltb_nan_l (a : float) : (nan <? a) = false.
Proof. by rewrite ltb_spec, Prim2SF_nan. Qed.

Lemma float_ltb_nan_r (a : float) : (a <? nan) = false.
Proof.
  rewrite ltb_spec, Prim2SF_nan. by destruct (Prim2SF a) as [[]|[]| |[] m e].
Qed.

Lemma float_abs_nan : abs nan = nan.
Proof. reflexivity. Qed.

Lemma float_nan_half : nan / 2 = nan.
Proof. reflexivity. Qed.

(** No magnitude is below a number that is zero or negative. *)
Lemma float_abs_ltb_nonpos (a b : float) : (b <=? 0) = true → (abs a <? b) = false.
Proof.
  rewrite ltb_spec, leb_spec, abs_spec.
  change (Prim2SF 0) with (S754_zero false).
  by destruct (Prim2SF a) as [[]|[]| |[] m e], (Prim2SF b) as [[]|[]| |[] m' e'].
Qed.

(** The difference of a number with itself is a zero or not a number, so
    its magnitude is never above 0.1. *)
Lemma SFsub_diag (a : spec_float) :
  SFabs (SF64sub a a) = S754_zero false ∨ SF64sub a a = S754_nan.
Proof.
  destruct a as [[]|[]| |s m e]; cbn; auto.
  left. rewrite Z.min_id, Z.sub_diag. reflexivity.
Qed.

Lemma float_abs_sub_diag (a : float) : gtb (abs (a - a)) 0.1 = false.
Proof.
  unfold gtb. rewrite ltb_spec, abs_spec, sub_spec.
  destruct (SFsub_diag (Prim2SF a)) as [-> | ->]; [by vm_compute|].
  cbn [SFabs]. by destruct (Prim2SF 0.1) as [[]|[]| |[] m e].
Qed.

Lemma exceedsThreshold_nan (b : Block.t) : exceedsThreshold b nan = false.
Proof.
  unfold exceedsThreshold, gtb.
  by rewrite float_sub_nan_r, float_abs_nan, float_ltb_nan_r.
Qed.

Lemma isNeighbor_missing_l (a b : Block.t) : missingGeometry a → isNeighbor a b = false.
Proof.
  intros [H|[H|[H|H]]]; rewrite isNeighbor_unfold; unfold cx, cy; rewrite H;
    cbn [toNumber].
  - by rewrite float_add_nan_l, float_sub_nan_l, float_abs_nan, float_ltb_nan_l.
  - by rewrite float_add_nan_l, float_sub_nan_l, float_abs_nan, float_ltb_nan_l,
      andb_false_r.
  - by rewrite float_nan_half, !float_add_nan_l, float_ltb_nan_r.
  - by rewrite float_nan_half, !float_add_nan_l, float_ltb_nan_r, andb_false_r.
Qed.

Lemma isNeighbor_missing_r (a b : Block.t) : missingGeometry b → isNeighbor a b = false.
Proof.
  intros [H|[H|[H|H]]]; rewrite isNeighbor_unfold; unfold cx, cy; rewrite H;
    cbn [toNumber].
  - by rewrite float_add_nan_l, float_sub_nan_r, float_abs_nan, float_ltb_nan_l.
  - by rewrite float_add_nan_l, float_sub_nan_r, float_abs_nan, float_ltb_nan_l,
      andb_false_r.
  - by rewrite float_nan_half, !float_add_nan_r, float_add_nan_l, float_ltb_nan_r.
  - by rewrite float_nan_half, !float_add_nan_r, float_add_nan_l, float_ltb_nan_r,
      andb_false_r.
Qed.

(** X1: a block that lacks [x], [y], [width] or [height] (an edit that
    carried only part of a block created it) is a neighbour of no block and
    has no neighbour, so in every snapshot it is isolated. *)
Theorem missing_geometry_never_neighbor (blocks : list Block.t) (a b : Block.t) :
  missingGeometry a →
  isNeighbor a b = false ∧ isNeighbor b a = false ∧ isolatedIn blocks a.
Proof.
  intros Ha. split; [by apply isNeighbor_missing_l|].
  split; [by apply isNeighbor_missing_r|].
  apply Forall_forall. intros other _ _. by apply isNeighbor_missing_l.
Qed.

(** X2: when the half-widths of two blocks plus the margin of 10 add up to
    zero or less, or their half-heights do, the blocks are not neighbours
    however close they are: negative extents switch adjacency off. *)
Theorem nonpositive_reach_never_neighbor (a b : Block.t) :
  (toNumber (Block.width a) / 2 + toNumber (Block.width b) / 2 + 10 <=? 0) = true
  ∨ (toNumber (Block.height a) / 2 + toNumber (Block.height b) / 2 + 10 <=? 0) = true →
  isNeighbor a b = false.
Proof.
  intros [H|H]; unfold isNeighbor.
  - by rewrite (float_abs_ltb_nonpos _ _ H).
  - by rewrite (float_abs_ltb_nonpos _ _ H), andb_false_r.
Qed.

Lemma elem_of_tickWrites_queued (blocks : list Block.t) (k : string) (v : float) :
  (k, v) ∈ tickWrites blocks →
  ∃ b, b ∈ blocks ∧ Block.id b = k ∧ exceedsThreshold b v = true.
Proof.
  unfold tickWrites. rewrite stepB_omap, list_elem_of_omap.
  intros (b & Hb & Hq). unfold queued in Hq.
  destruct (exceedsThreshold b _) eqn:Hex; [|done].
  injection Hq as <- <-. by exists b.
Qed.

(** X3: whatever the snapshot, a write the tick queues never carries
    [NaN], and it never carries the temperature the tick read for that
    block: a queued write always changes the number the simulation sees. *)
Theorem queued_write_is_a_new_number (blocks : list Block.t) (k : string) (v : float) :
  (k, v) ∈ tickWrites blocks →
  v ≠ nan
  ∧ ∃ b, b ∈ blocks ∧ Block.id b = k ∧ v ≠ orElse (Block.temperature b) 20.
Proof.
  intros Hin. destruct (elem_of_tickWrites_queued _ _ _ Hin) as (b & Hb & Hid & Hex).
  split.
  - intros ->. by rewrite exceedsThreshold_nan in Hex.
  - exists b. split; [done|]. split; [done|]. intros ->.
    unfold exceedsThreshold in Hex. by rewrite float_abs_sub_diag in Hex.
Qed.

Lemma computeTemp_no_load (blocks : list Block.t) (block : Block.t) :
  Block.dynamicLoad block = None → computeTemp blocks block = nan.
Proof.
  intros H. unfold computeTemp, generatedTemp. rewrite H. cbn [toNumber].
  destruct (fold_left _ _ _) as [t c]. destruct (gtb c 0).
  - change (nan / 100 * 10 + 20) with nan. change (nan * 0.6) with nan.
    rewrite float_add_nan_l. reflexivity.
  - reflexivity.
Qed.

(** X4: a block without [dynamicLoad] computes [NaN] in every snapshot,
    with or without neighbours, so over a store whose records sit under
    their own ids the tick never rewrites its record, whatever temperature
    it holds. *)
Theorem no_load_never_written (up : bool) (s : Store) (k : string) (d : Doc.t) :
  wf s → s !! k = Some d → Doc.dynamicLoad d = None →
  computeTemp (getBlocks s) (toBlock k d) = nan
  ∧ (∀ v, (k, v) ∉ tickWrites (getBlocks s))
  ∧ after (runSimulationTick up s) !! k = Some d.
Proof.
  intros Hwf Hk Hload.
  assert (computeTemp (getBlocks s) (toBlock k d) = nan) as Hc
    by by apply computeTemp_no_load.
  split; [done|]. split.
  - intros v Hin. apply (elem_of_tickWrites s k d v Hwf Hk) in Hin as [Hex _].
    by rewrite Hc, exceedsThreshold_nan in Hex.
  - destruct (runSimulationTick_lookup up s k d Hwf Hk) as [_ ->].
    by rewrite Hc, exceedsThreshold_nan, andb_false_r.
Qed.

End NotANumber.

(** ** What a block's new temperature depends on *)

Section Locality.

Import JsNum.
Local Open Scope float_scope.

Lemma neighborStep_withTemperature_self (t : option float) (b other : Block.t)
    (acc : float * float) :
  neighborStep (withTemperature t b) acc other = neighborStep b acc other.
Proof. reflexivity. Qed.

Lemma neighborStep_same_id (block other : Block.t) (acc : float * float) :
  Block.id other = Block.id block → neighborStep block acc other = acc.
Proof.
  intros Hid. apply neighborStep_skip. intros Hne. by destruct Hne.
Qed.

Lemma neighborLoop_withTemperature (t : option float) (b : Block.t) (l : list Block.t)
    (acc : float * float) :
  fold_left (neighborStep (withTemperature t b)) l acc = fold_left (neighborStep b) l acc.
Proof.
  revert acc. induction l as [|o l IH]; intros acc; [done|].
  cbn [fold_left]. by rewrite neighborStep_withTemperature_self, IH.
Qed.

(** X5: the temperature a tick computes for a block does not depend on the
    temperature stored for that block: with the rest of the snapshot
    unchanged, any other stored temperature of the block, or none, gives the
    same new temperature. *)
Theorem computeTemp_ignores_own_temperature (l1 l2 : list Block.t) (b : Block.t)
    (t : option float) :
  computeTemp (l1 ++ withTemperature t b :: l2) (withTemperature t b)
  = computeTemp (l1 ++ b :: l2) b.
Proof.
  unfold computeTemp. rewrite neighborLoop_withTemperature.
  rewrite !fold_left_app. cbn [fold_left].
  by rewrite !neighborStep_same_id.
Qed.

(** X6: a block that fails the neighbour test against [block], or has the
    same id, does not influence the temperature computed for [block]:
    the snapshot with and without it gives the same value. *)
Theorem computeTemp_ignores_non_neighbor (l1 l2 : list Block.t) (block far : Block.t) :
  Block.id far = Block.id block ∨ isNeighbor block far = false →
  computeTemp (l1 ++ far :: l2) block = computeTemp (l1 ++ l2) block.
Proof.
  intros Hfar. unfold computeTemp. rewrite !fold_left_app. cbn [fold_left].
  rewrite neighborStep_skip; [done|].
  intros Hne. by destruct Hfar.
Qed.

Lemma queued_ids_sublist (newTemps : gmap string float) (l : list Block.t) :
  sublist (omap (queued newTemps) l).*1 (Block.id <$> l).
Proof.
  induction l as [|b l IH]; [constructor|].
  cbn [omap list_omap]. unfold queued at 1.
  destruct (exceedsThreshold b _); rewrite !fmap_cons.
  - by apply sublist_skip.
  - by apply sublist_cons.
Qed.

(** X7: whatever the snapshot, the ids of the writes a tick queues are a
    subsequence of the ids of the snapshot: the tick writes at most once per
    block it read, in snapshot order, and never to an id it did not read. *)
Theorem tickWrites_ids_sublist (blocks : list Block.t) :
  sublist (tickWrites blocks).*1 (Block.id <$> blocks)
  ∧ length (tickWrites blocks) ≤ length blocks.
Proof.
  assert (sublist (tickWrites blocks).*1 (Block.id <$> blocks)) as H.
  { unfold tickWrites. rewrite stepB_omap. apply queued_ids_sublist. }
  split; [done|]. apply sublist_length in H. by rewrite !length_fmap in H.
Qed.

End Locality.

(** ** How the edits compose *)

Section Composition.

Lemma mergeField_idem {A} (new old : option A) :
  Firestore.mergeField new (Firestore.mergeField new old) = Firestore.mergeField new old.
Proof. by destruct new. Qed.

Lemma mergeField_assoc {A} (n2 n1 old : option A) :
  Firestore.mergeField n2 (Firestore.mergeField n1 old)
  = Firestore.mergeField (Firestore.mergeField n2 n1) old.
Proof. by destruct n2. Qed.

Lemma merge_idem (b : Block.t) (old : option Doc.t) :
  Firestore.merge b (Some (Firestore.merge b old)) = Firestore.merge b old.
Proof.
  unfold Firestore.merge. cbn [from_option id Doc.x Doc.y Doc.width Doc.height
    Doc.dynamicLoad Doc.temperature].
  by rewrite !mergeField_idem.
Qed.

Lemma merge_overlay (b2 b1 : Block.t) (old : option Doc.t) :
  Firestore.merge b2 (Some (Firestore.merge b1 old))
  = Firestore.merge (overlay b2 b1) old.
Proof.
  unfold Firestore.merge, overlay. cbn [from_option id Doc.x Doc.y Doc.width
    Doc.height Doc.dynamicLoad Doc.temperature Block.id Block.x Block.y Block.width
    Block.height Block.dynamicLoad Block.temperature].
  by rewrite !mergeField_assoc.
Qed.

(** X8: [block-updated] is idempotent: the same payload delivered twice
    leaves the collection as one delivery does. *)
Theorem blockUpdated_idempotent (updatedBlock : Block.t) (s : Store) :
  after (blockUpdated true updatedBlock (after (blockUpdated true updatedBlock s)))
  = after (blockUpdated true updatedBlock s).
Proof.
  cbn. rewrite lookup_insert_eq, insert_insert_eq. by rewrite merge_idem.
Qed.

(** X9: two edits of the same block, one after the other, leave the
    collection as the single edit whose payload has every field of the
    later one and, where the later one has none, the field of the earlier
    one: field by field the last writer wins. *)
Theorem blockUpdated_same_id (later earlier : Block.t) (s : Store) :
  Block.id later = Block.id earlier →
  after (blockUpdated true later (after (blockUpdated true earlier s)))
  = after (blockUpdated true (overlay later earlier) s).
Proof.
  intros Hid. cbn. rewrite Hid, lookup_insert_eq, insert_insert_eq.
  by rewrite merge_overlay.
Qed.

(** X10: edits of two different blocks do not interfere: in either order,
    and whichever of the two requests the store lets through, the
    collection afterwards is the same. *)
Theorem blockUpdated_commute (up1 up2 : bool) (b1 b2 : Block.t) (s : Store) :
  Block.id b1 ≠ Block.id b2 →
  after (blockUpdated up2 b2 (after (blockUpdated up1 b1 s)))
  = after (blockUpdated up1 b1 (after (blockUpdated up2 b2 s))).
Proof.
  intros Hne. destruct up1, up2; cbn; try done.
  rewrite !lookup_insert_ne by done. by apply insert_insert_ne.
Qed.

(** X11: [block-deleted] for an id that is not in the collection goes
    through and changes nothing, and deleting a block right after the edit
    that created it gives back the collection from before the edit. *)
Theorem blockDeleted_absent (updatedBlock : Block.t) (s : Store) :
  s !! Block.id updatedBlock = None →
  blockDeleted true (Block.id updatedBlock) s = {| ok := true; after := s |}
  ∧ after (blockDeleted true (Block.id updatedBlock)
             (after (blockUpdated true updatedBlock s))) = s.
Proof.
  intros Hk. split; cbn.
  - by rewrite delete_id.
  - by rewrite delete_insert_eq, delete_id.
Qed.

Lemma ticks_empty (ups : list bool) : ticks ups ∅ = ∅.
Proof.
  induction ups as [|up ups IH]; [done|].
  cbn [ticks fold_left]. unfold runSimulationTick. rewrite getBlocks_empty.
  destruct up; apply IH.
Qed.

(** X12: on an empty collection a tick returns before it computes or
    queues anything; so after a [clear-canvas] that went through, any number
    of ticks, committed or not, leave the collection empty. *)
Theorem ticks_after_clear (ups : list bool) (up : bool) (s : Store) :
  tickWrites (getBlocks ∅) = []
  ∧ after (runSimulationTick up ∅) = ∅
  ∧ ticks ups (after (clearCanvas true s)) = ∅.
Proof.
  split; [by rewrite getBlocks_empty|]. split.
  - apply (ticks_empty [up]).
  - rewrite clearCanvas_up. apply ticks_empty.
Qed.

End Composition.

(** ** The broadcast *)

Section Broadcast.

Lemma blocksUpdated_loop (l : list (string * Doc.t)) (blocks : list Block.t) :
  fold_left (fun blocks kd => blocks ++ [toBlock kd.1 kd.2]) l blocks
  = blocks ++ ((fun kd => toBlock kd.1 kd.2) <$> l).
Proof.
  revert blocks. induction l as [|kd l IH]; intros blocks.
  - by rewrite app_nil_r.
  - cbn [fold_left]. rewrite IH, fmap_cons. by rewrite <- app_assoc.
Qed.

Lemma blocksUpdated_getBlocks (s : Store) : blocksUpdated s = getBlocks s.
Proof. unfold blocksUpdated. by rewrite blocksUpdated_loop. Qed.

Lemma stamped_wf (s : Store) : stamped s → wf s.
Proof.
  intros Hs k d Hk. cbn. by rewrite (Hs k d Hk).
Qed.

(** X13: the broadcast holds exactly one block per stored record, each
    with the record's fields, and nothing else; over a store whose records
    sit under their own ids the blocks carry the documents' ids, all
    distinct. *)
Theorem blocksUpdated_complete (s : Store) :
  length (blocksUpdated s) = size s
  ∧ (∀ b, b ∈ blocksUpdated s ↔ ∃ k d, s !! k = Some d ∧ b = toBlock k d)
  ∧ (wf s → Block.id <$> blocksUpdated s = (map_to_list s).*1
            ∧ NoDup (Block.id <$> blocksUpdated s)).
Proof.
  rewrite blocksUpdated_getBlocks. split; [|split].
  - unfold getBlocks. by rewrite length_fmap, length_map_to_list.
  - apply elem_of_getBlocks.
  - intros Hwf. split; [by apply getBlocks_ids|by apply getBlocks_NoDup].
Qed.

Lemma mergeField_None_r {A} (new : option A) : Firestore.mergeField new None = new.
Proof. by destruct new. Qed.

Lemma toBlock_merge_fresh (k : string) (d : Doc.t) :
  Doc.id d = Some k → Firestore.merge (toBlock k d) None = d.
Proof.
  intros Hid. destruct d as [i x y w h l t]. cbn in Hid. subst i.
  unfold Firestore.merge. cbn. by rewrite !mergeField_None_r.
Qed.

Lemma replay_cons (b : Block.t) (l : list Block.t) (s : Store) :
  replay (b :: l) s = replay l (after (blockUpdated true b s)).
Proof. reflexivity. Qed.

Lemma blockUpdated_fresh (k : string) (d : Doc.t) (s : Store) :
  Doc.id d = Some k → s !! k = None →
  after (blockUpdated true (toBlock k d) s) = <[k := d]> s.
Proof.
  intros Hid Hnone. unfold blockUpdated, Firestore.setMerge. cbn [settle after].
  assert (Block.id (toBlock k d) = k) as -> by (cbn; by rewrite Hid).
  by rewrite Hnone, toBlock_merge_fresh.
Qed.

Lemma replay_lookup (l : list (string * Doc.t)) (s0 : Store) :
  NoDup l.*1 →
  (∀ k d, (k, d) ∈ l → Doc.id d = Some k ∧ s0 !! k = None) →
  ∀ k, replay ((fun kd => toBlock kd.1 kd.2) <$> l) s0 !! k
       = match (list_to_map l : Store) !! k with
         | Some d => Some d
         | None => s0 !! k
         end.
Proof.
  revert s0. induction l as [|[k0 d0] l IH]; intros s0 Hnd Hl k.
  - cbn. by rewrite lookup_empty.
  - rewrite fmap_cons in Hnd. apply NoDup_cons in Hnd as [Hfresh Hnd]. cbn in Hfresh.
    destruct (Hl k0 d0) as [Hid Hnone]; [by left|].
    rewrite fmap_cons, replay_cons. cbn [fst snd].
    rewrite (blockUpdated_fresh k0 d0 s0 Hid Hnone).
    rewrite IH; [|done|].
    + cbn [list_to_map foldr]. cbn.
      destruct (decide (k = k0)) as [->|Hne].
      * rewrite (not_elem_of_list_to_map_1 l k0) by done.
        by rewrite !lookup_insert_eq.
      * by rewrite !lookup_insert_ne by done.
    + intros k' d' Hin. destruct (Hl k' d') as [Hid' Hnone']; [by right|].
      split; [done|]. rewrite lookup_insert_ne; [done|].
      intros <-. apply Hfresh. apply list_elem_of_fmap. by exists (k0, d').
Qed.

(** X14: the broadcast loses nothing: over a store in which every record
    carries its own id, sending every block of the broadcast back as a
    [block-updated] edit to an empty collection rebuilds the store exactly. *)
Theorem replay_blocksUpdated (s : Store) :
  stamped s → replay (blocksUpdated s) ∅ = s.
Proof.
  intros Hs. rewrite blocksUpdated_getBlocks. unfold getBlocks.
  apply map_eq. intros k. rewrite replay_lookup.
  - rewrite list_to_map_to_list, lookup_empty. by destruct (s !! k).
  - apply NoDup_fst_map_to_list.
  - intros k' d' Hin. apply elem_of_map_to_list in Hin.
    split; [by apply Hs|apply lookup_empty].
Qed.

Lemma blockUpdated_stamped (up : bool) (updatedBlock : Block.t) (s : Store) :
  stamped s → stamped (after (blockUpdated up updatedBlock s)).
Proof.
  intros Hs. destruct up; [|done]. cbn. apply map_Forall_insert_2; [done|exact Hs].
Qed.

Lemma frame_stamped (s s' : Store) : frame s s' → stamped s → stamped s'.
Proof.
  intros H Hs k d' Hk.
  destruct (frame_lookup_inv _ _ _ _ H Hk) as (d & Hd & Hid & _).
  cbn. rewrite Hid. by apply Hs.
Qed.

Lemma handle_stamped (s : Store) (e : event) : stamped s → stamped (handle s e).
Proof.
  intros Hs. destruct e as [up|up b|up k|up]; cbn [handle].
  - eapply frame_stamped; [apply runSimulationTick_frame|done].
  - by apply blockUpdated_stamped.
  - destruct up; [|done]. cbn. by apply map_Forall_delete.
  - destruct up; [|done]. rewrite clearCanvas_up. apply map_Forall_empty.
Qed.

(** X15: starting from the empty collection, after any sequence of ticks,
    edits, deletes and clears, accepted or rejected by the store, every
    record carries an [id] property equal to the id it is stored under, so
    the blocks of every broadcast have distinct ids. *)
Theorem reachable_stamped (events : list event) :
  stamped (run events ∅)
  ∧ NoDup (Block.id <$> blocksUpdated (run events ∅)).
Proof.
  assert (∀ s, stamped s → stamped (run events s)) as Hrun.
  { induction events as [|e events IH]; intros s Hs; [done|].
    cbn. by apply IH, handle_stamped. }
  assert (stamped (run events ∅)) as Hs by apply Hrun, map_Forall_empty.
  split; [done|].
  rewrite blocksUpdated_getBlocks. by apply getBlocks_NoDup, stamped_wf.
Qed.

End Broadcast.

(** ** The further properties on sample collections *)

Section OnSample2.

Import JsNum.
Local Open Scope float_scope.

Ltac by_deciding := apply (bool_decide_unpack _); vm_compute; exact I.

Lemma sample2_wf : wf Sample2.store.
Proof. by_deciding. Defined.

Lemma sample_stamped : stamped Sample.store.
Proof. by_deciding. Defined.

Lemma missing_geometry_never_neighbor_witness :
  isNeighbor (toBlock "E" Sample2.dMoved) (toBlock "A" Sample.dA) = false
  ∧ isNeighbor (toBlock "A" Sample.dA) (toBlock "E" Sample2.dMoved) = false
  ∧ isolatedIn (getBlocks Sample2.store) (toBlock "E" Sample2.dMoved).
Proof.
  apply (missing_geometry_never_neighbor (getBlocks Sample2.store)
           (toBlock "E" Sample2.dMoved) (toBlock "A" Sample.dA)).
  right. right. left. reflexivity.
Defined.

Lemma nonpositive_reach_never_neighbor_witness :
  isNeighbor (toBlock "N" Sample2.dNegative) (toBlock "N" Sample2.dNegative) = false.
Proof.
  apply (nonpositive_reach_never_neighbor (toBlock "N" Sample2.dNegative)
           (toBlock "N" Sample2.dNegative)).
  left. vm_compute. reflexivity.
Defined.

Lemma queued_write_is_a_new_number_witness :
  25.399999999999999 ≠ nan
  ∧ ∃ b, b ∈ Sample.blocks ∧ Block.id b = "A"
         ∧ 25.399999999999999 ≠ orElse (Block.temperature b) 20.
Proof.
  apply (queued_write_is_a_new_number Sample.blocks "A" 25.399999999999999).
  vm_compute. apply list_elem_of_here.
Defined.

Lemma no_load_never_written_witness :
  computeTemp (getBlocks Sample2.store) (toBlock "L" Sample2.dNoLoad) = nan
  ∧ after (runSimulationTick true Sample2.store) !! "L" = Some Sample2.dNoLoad.
Proof.
  destruct (no_load_never_written true Sample2.store "L" Sample2.dNoLoad
              sample2_wf eq_refl eq_refl) as (H1 & _ & H3).
  split; [exact H1|exact H3].
Defined.

Lemma computeTemp_ignores_non_neighbor_witness :
  computeTemp [toBlock "A" Sample.dA; toBlock "C" Sample.dC; toBlock "B" Sample.dB]
              (toBlock "A" Sample.dA)
  = computeTemp [toBlock "A" Sample.dA; toBlock "B" Sample.dB] (toBlock "A" Sample.dA).
Proof.
  apply (computeTemp_ignores_non_neighbor [toBlock "A" Sample.dA]
           [toBlock "B" Sample.dB] (toBlock "A" Sample.dA) (toBlock "C" Sample.dC)).
  right. vm_compute. reflexivity.
Defined.

Lemma blockUpdated_same_id_witness :
  after (blockUpdated true (Block.mk "A" (Some 7) None None None None None)
           (after (blockUpdated true (Block.mk "A" (Some 1) (Some 9) None None None None)
                     Sample.store)))
  = after (blockUpdated true (Block.mk "A" (Some 7) (Some 9) None None None None)
             Sample.store).
Proof.
  apply (blockUpdated_same_id (Block.mk "A" (Some 7) None None None None None)
           (Block.mk "A" (Some 1) (Some 9) None None None None) Sample.store).
  reflexivity.
Defined.

Lemma blockUpdated_commute_witness :
  after (blockUpdated true Sample2.fresh
           (after (blockUpdated true (Block.mk "A" (Some 7) None None None None None)
                     Sample.store)))
  = after (blockUpdated true (Block.mk "A" (Some 7) None None None None None)
             (after (blockUpdated true Sample2.fresh Sample.store))).
Proof.
  apply (blockUpdated_commute true true
           (Block.mk "A" (Some 7) None None None None None) Sample2.fresh Sample.store).
  by_deciding.
Defined.

Lemma blockDeleted_absent_witness :
  blockDeleted true "Z" Sample.store = {| ok := true; after := Sample.store |}
  ∧ after (blockDeleted true "Z" (after (blockUpdated true Sample2.fresh Sample.store)))
    = Sample.store.
Proof.
  apply (blockDeleted_absent Sample2.fresh Sample.store). reflexivity.
Defined.

Lemma clearCanvas_all_or_nothing_witness :
  clearCanvas true Sample.store = {| ok := true; after := ∅ |}
  ∧ getBlocks (after (clearCanvas true Sample.store)) = []
  ∧ clearCanvas false Sample.store = {| ok := false; after := Sample.store |}.
Proof.
  destruct (clearCanvas_all_or_nothing true Sample.store) as (H1 & H2 & H3 & _).
  split; [exact H1|]. split; [exact H2|exact H3].
Defined.

Lemma replay_blocksUpdated_witness :
  replay (blocksUpdated Sample.store) ∅ = Sample.store.
Proof.
  apply (replay_blocksUpdated Sample.store). exact sample_stamped.
Defined.

End OnSample2.
